(** * LovePing server: the WebSocket room broadcaster of [main.py]

    The handler [ws_room] of [main.py] keeps one process-wide dictionary
    [rooms : Dict[str, set]] and, per connection, registers the socket in its
    room, relays every text message it receives to the sockets of the room and
    unregisters the socket when its read loop ends.

    This development embeds that handler and proves the properties of its
    three phases: joining, fanning a message out, leaving. *)

From Stdlib Require Import Ascii DecimalString.
From stdpp Require Import gmap strings list fin_maps.

Open Scope string_scope.
Open Scope list_scope.

(** ** Data model *)

(** A [WebSocket] object is hashed and compared by identity (Starlette resets
    [__eq__] and [__hash__] of a connection to those of [object]), so a socket
    is its identity. *)
Definition WebSocket : Type := nat.

(** [rooms: Dict[str, set] = {}] *)
Abbreviation Rooms := (gmap string (gset WebSocket)).

(** The exceptions the handler distinguishes.  [except Exception] catches the
    first two, [except WebSocketDisconnect] only the first; an exception that
    derives from [BaseException] alone (task cancellation, interpreter exit)
    is caught by neither. *)
Inductive exception : Type :=
  | WebSocketDisconnect
  | OtherException (cls : string)
  | BaseExceptionOnly (cls : string).

Definition isinstance_Exception (e : exception) : bool :=
  match e with
  | WebSocketDisconnect | OtherException _ => true
  | BaseExceptionOnly _ => false
  end.

Definition isinstance_WebSocketDisconnect (e : exception) : bool :=
  match e with
  | WebSocketDisconnect => true
  | _ => false
  end.

(** What happens on the wire: every call of [client.send_text(msg)] leaves one
    event, with the payload it was called with. *)
Inductive event : Type :=
  | Delivered (client : WebSocket) (payload : string)
  | SendRaised (client : WebSocket) (payload : string) (e : exception).

Definition target (ev : event) : WebSocket :=
  match ev with
  | Delivered c _ | SendRaised c _ _ => c
  end.

Definition payload_of (ev : event) : string :=
  match ev with
  | Delivered _ m | SendRaised _ m _ => m
  end.

Definition is_delivery (ev : event) : bool :=
  match ev with
  | Delivered _ _ => true
  | SendRaised _ _ _ => false
  end.

(** The transport is the environment of the handler: whether a send succeeds
    may depend on everything that happened before it. [None] is a normal
    return of [send_text], [Some e] is [send_text] raising [e]. *)
Definition Transport : Type := list event → WebSocket → string → option exception.

(** ** The registry operations of [ws_room] *)

(** [rooms.get(room, set())]: the set stored under the key, or a fresh empty
    set that is not stored in the dictionary. *)
Definition members (d : Rooms) (room : string) : gset WebSocket :=
  default ∅ (d !! room).

(** [rooms.setdefault(room, set()).add(ws)] *)
Definition Join (d : Rooms) (room : string) (ws : WebSocket) : Rooms :=
  match d !! room with
  | Some s => <[room := s ∪ {[ws]}]> d
  | None => <[room := ∅ ∪ {[ws]}]> d
  end.

(** [rooms.get(room, set()).discard(ws)]: the set found under the key is
    changed in place; when the key is missing the discard acts on the fresh
    default set and the dictionary is not touched. *)
Definition Leave (d : Rooms) (room : string) (ws : WebSocket) : Rooms :=
  match d !! room with
  | Some s => <[room := s ∖ {[ws]}]> d
  | None => d
  end.

(** ** The state the handlers share, and the monad of a handler body *)

Record World : Type := mkWorld {
  rooms : Rooms;          (* the module-level dictionary *)
  wire : list event;      (* every [send_text] call so far, oldest first *)
}.

Inductive result (A : Type) : Type :=
  | Return (a : A)
  | Raise (e : exception).
Arguments Return {A} a.
Arguments Raise {A} e.

Definition M (A : Type) : Type := World → World * result A.

Definition ret {A} (a : A) : M A := λ w, (w, Return a).

Definition raise {A} (e : exception) : M A := λ w, (w, Raise e).

Definition bind {A B} (c : M A) (k : A → M B) : M B :=
  λ w, match c w with
       | (w', Return a) => k a w'
       | (w', Raise e) => (w', Raise e)
       end.

#[global] Instance M_ret : MRet M := @ret.
#[global] Instance M_bind : MBind M := λ A B k c, bind c k.

(** [try: c  except cls: pass] where [catches e] is [isinstance(e, cls)]. *)
Definition try_except_pass (catches : exception → bool) (c : M unit) : M unit :=
  λ w, match c w with
       | (w', Return a) => (w', Return a)
       | (w', Raise e) => if catches e then (w', Return tt) else (w', Raise e)
       end.

(** [try: c  finally: f]: [f] runs on both exits, and what [c] raised is
    raised again after it unless [f] raises itself. *)
Definition try_finally (c f : M unit) : M unit :=
  λ w, match c w with
       | (w', r) =>
           match f w' with
           | (w'', Return _) => (w'', r)
           | (w'', Raise e) => (w'', Raise e)
           end
       end.

(** [for x in l: body(x)] *)
Fixpoint for_each {A} (l : list A) (body : A → M unit) : M unit :=
  match l with
  | [] => ret tt
  | x :: rest => body x ;; for_each rest body
  end.

Definition update_rooms (f : Rooms → Rooms) : M unit :=
  λ w, (mkWorld (f (rooms w)) (wire w), Return tt).

Section Handler.

(** The sockets behave as the transport [net] says. *)
Variable net : Transport.

(** [await client.send_text(msg)] *)
Definition send_text (client : WebSocket) (msg : string) : M unit :=
  λ w, match net (wire w) client msg with
       | None => (mkWorld (rooms w) (wire w ++ [Delivered client msg]), Return tt)
       | Some e => (mkWorld (rooms w) (wire w ++ [SendRaised client msg e]), Raise e)
       end.

(** Line 311, the registration that follows [await ws.accept()]. *)
Definition join (room : string) (ws : WebSocket) : M unit :=
  update_rooms (λ d, Join d room ws).

(** Line 323, the body of [finally]. *)
Definition leave (room : string) (ws : WebSocket) : M unit :=
  update_rooms (λ d, Leave d room ws).

(** Lines 316-319, the body of the [for] loop. *)
Definition relay (msg : string) (client : WebSocket) : M unit :=
  try_except_pass isinstance_Exception (send_text client msg).

(** Line 315, the list the [for] loop runs over: a copy of the room's set,
    taken before the first send. *)
Definition snapshot (room : string) (w : World) : list WebSocket :=
  elements (members (rooms w) room).

(** Lines 315-319: the fan-out of one message [msg] that [ws] received.
    The loop never looks at [ws]. *)
Definition Broadcast (room : string) (ws : WebSocket) (msg : string) : M unit :=
  λ w, for_each (snapshot room w) (relay msg) w.

End Handler.

(** ** The handler as a task of the event loop

    [ws_room] is a coroutine: it runs without interruption from one [await]
    to the next, and other handlers run while it waits. Its program counter
    is the [await] it is suspended at. *)

Inductive pc : Type :=
  | AtAccept                                   (* line 310 *)
  | AtReceive                                  (* line 314 *)
  | AtSend (msg : string) (client : WebSocket) (rest : list WebSocket)
                                               (* line 317 *)
  | Done (r : result unit).

(** What wakes a suspended handler up. The outcome of a send is the
    transport's; the outcome of [accept] and [receive_text] is the peer's. *)
Inductive signal : Type :=
  | Accepted
  | AcceptRaised (e : exception)
  | Received (msg : string)
  | ReceiveRaised (e : exception)
  | SendAnswered.

Section Task.

Variable net : Transport.
Variable room : string.
Variable ws : WebSocket.

(** Where the [for] loop suspends next: at the send to the next client of
    the copied list, or, the list exhausted, back at [receive_text]. *)
Definition next_client (msg : string) (l : list WebSocket) : pc :=
  match l with
  | [] => AtReceive
  | client :: rest => AtSend msg client rest
  end.

(** Lines 320-323: an exception [e] leaves the [while] loop. *)
Definition unwind (e : exception) (w : World) : pc * World :=
  match try_finally
          (try_except_pass isinstance_WebSocketDisconnect (raise e))
          (leave room ws) w with
  | (w', r) => (Done r, w')
  end.

Definition ws_room_step (p : pc) (sg : signal) (w : World) : pc * World :=
  match p, sg with
  | AtAccept, Accepted =>
      match join room ws w with
      | (w', _) => (AtReceive, w')
      end
  | AtAccept, AcceptRaised e => (Done (Raise e), w)
  | AtReceive, Received msg => (next_client msg (snapshot room w), w)
  | AtReceive, ReceiveRaised e => unwind e w
  | AtSend msg client rest, SendAnswered =>
      match relay net msg client w with
      | (w', Return _) => (next_client msg rest, w')
      | (w', Raise e) => unwind e w'
      end
  | _, _ => (p, w)
  end.

(** The handler alone: no other task runs between its steps. *)
Fixpoint ws_room_steps (p : pc) (sgs : list signal) (w : World) : pc * World :=
  match sgs with
  | [] => (p, w)
  | sg :: rest =>
      match ws_room_step p sg w with
      | (p', w') => ws_room_steps p' rest w'
      end
  end.

End Task.

(** The server: the shared world and one task per open connection, each with
    the room of its URL. *)
Record Server : Type := mkServer {
  world : World;
  tasks : gmap WebSocket (string * pc);
}.

Inductive label : Type :=
  | Connect (ws : WebSocket) (room : string)   (* a client opens /ws/{room} *)
  | Wake (ws : WebSocket) (sg : signal).

Definition boot : Server := mkServer (mkWorld ∅ []) ∅.

Definition server_step (net : Transport) (s : Server) (lb : label) : Server :=
  match lb with
  | Connect ws room =>
      match tasks s !! ws with
      | Some _ => s
      | None => mkServer (world s) (<[ws := (room, AtAccept)]> (tasks s))
      end
  | Wake ws sg =>
      match tasks s !! ws with
      | Some (room, p) =>
          match ws_room_step net room ws p sg (world s) with
          | (p', w') => mkServer w' (<[ws := (room, p')]> (tasks s))
          end
      | None => s
      end
  end.

Definition run (net : Transport) (lbs : list label) (s : Server) : Server :=
  fold_left (server_step net) lbs s.

Definition reachable (net : Transport) (s : Server) : Prop :=
  ∃ lbs, run net lbs boot = s.

(** The handler is inside its [while] loop: registered, and not yet in its
    [finally]. *)
Definition in_loop (p : pc) : bool :=
  match p with
  | AtReceive | AtSend _ _ _ => true
  | AtAccept | Done _ => false
  end.

(** Every handler that is inside its loop is registered in its room. *)
Definition handlers_registered (s : Server) : Prop :=
  ∀ ws room p,
    tasks s !! ws = Some (room, p) → in_loop p = true →
    ws ∈ members (rooms (world s)) room.

(** ** What an observer of the wire sees *)

(** The sends made between two states of the world. *)
Definition new_events (w w' : World) : list event :=
  drop (length (wire w)) (wire w').

#[global] Instance exception_eq_dec : EqDecision exception.
Proof. solve_decision. Defined.

#[global] Instance event_eq_dec : EqDecision event.
Proof. solve_decision. Defined.

(** The sends of one fan-out. *)
Definition Broadcast_events (net : Transport) (room : string) (ws : WebSocket)
    (msg : string) (w : World) : list event :=
  new_events w (Broadcast net room ws msg w).1.

(** The calls of [send_text] made on [c]. *)
Definition calls_on (c : WebSocket) (evs : list event) : list event :=
  filter (λ ev, target ev = c) evs.

(** The number of copies of [msg] that reached [c]. *)
Definition copies (c : WebSocket) (msg : string) (evs : list event) : nat :=
  length (filter (λ ev, ev = Delivered c msg) evs).

(** The send to [c] failed: some call on it raised. *)
Definition send_failed (c : WebSocket) (evs : list event) : Prop :=
  ∃ m e, SendRaised c m e ∈ evs.

(** The event one call of [send_text] leaves on the wire. *)
Definition outcome_event (net : Transport) (tr : list event)
    (c : WebSocket) (msg : string) : event :=
  match net tr c msg with
  | None => Delivered c msg
  | Some e => SendRaised c msg e
  end.

(** The events of a [for] loop that no exception leaves. *)
Fixpoint loop_events (net : Transport) (msg : string) (l : list WebSocket)
    (tr : list event) : list event :=
  match l with
  | [] => []
  | c :: rest =>
      outcome_event net tr c msg
        :: loop_events net msg rest (tr ++ [outcome_event net tr c msg])
  end.

(** Every exception a send raises is an error, an instance of [Exception]. *)
Definition raises_errors_only (net : Transport) : Prop :=
  ∀ tr c m e, net tr c m = Some e → isinstance_Exception e = true.

(** ** Transports and worlds of the scenarios *)

Definition always_up : Transport := λ _ _ _, None.

(** The channel of socket [b] is permanently broken. *)
Definition broken (b : WebSocket) : Transport :=
  λ _ c _, if decide (c = b) then Some (OtherException "RuntimeError") else None.

(** The task of the sender is cancelled while it awaits the send to [b]. *)
Definition cancelled_at (b : WebSocket) : Transport :=
  λ _ c _, if decide (c = b) then Some (BaseExceptionOnly "CancelledError") else None.

Definition pair_r1 : World := mkWorld (Join (Join ∅ "r1" 1) "r1" 2) [].
Definition trio_r2 : World := mkWorld (Join (Join (Join ∅ "r2" 1) "r2" 2) "r2" 3) [].

(** The handler of [ws] serves [room] and is inside its loop. *)
Definition live (s : Server) (ws : WebSocket) (room : string) : Prop :=
  ∃ p, tasks s !! ws = Some (room, p) ∧ in_loop p = true.

(** The socket a label is about. *)
Definition socket_of (lb : label) : WebSocket :=
  match lb with
  | Connect ws _ | Wake ws _ => ws
  end.

(** The sends that the handler of [ws] makes along a run: what its own
    steps put on the wire. *)
Fixpoint sends_by (net : Transport) (ws : WebSocket) (lbs : list label)
    (s : Server) : list event :=
  match lbs with
  | [] => []
  | lb :: rest =>
      (if decide (socket_of lb = ws)
       then new_events (world s) (world (server_step net s lb))
       else [])
      ++ sends_by net ws rest (server_step net s lb)
  end.

(** The labels of a stretch of a run in which the handler of [ws], when it
    runs, is resumed from a send. *)
Definition only_sends (ws : WebSocket) (lbs : list label) : Prop :=
  Forall (λ lb, socket_of lb = ws → lb = Wake ws SendAnswered) lbs.

(** How often the handler of [ws] runs in a stretch of a run. *)
Definition turns (ws : WebSocket) (lbs : list label) : nat :=
  length (filter (λ lb, socket_of lb = ws) lbs).

(** Sockets 1 and 2 have joined room r, the channel of 2 is broken, and 1
    has received x and copied the room: it is about to send to 2. *)
Definition mid_fan_out : Server :=
  run (broken 2)
    [Connect 1 "r"; Wake 1 Accepted; Connect 2 "r"; Wake 2 Accepted;
     Wake 1 (Received "x")] boot.

(** Sockets 1 and 2 have joined room r and wait for a message. *)
Definition both_waiting : Server :=
  run always_up
    [Connect 1 "r"; Wake 1 Accepted; Connect 2 "r"; Wake 2 Accepted] boot.

(** While 1 relays a message, 2 disconnects and 3 joins. *)
Definition busy_stretch : list label :=
  [Wake 2 (ReceiveRaised WebSocketDisconnect); Wake 1 SendAnswered;
   Connect 3 "r"; Wake 3 Accepted; Wake 1 SendAnswered].

(** * The accounts of [main.py]

    The HTTP side of the server: the users table, registration and login,
    and the bearer header of the API. Each endpoint is a plain function that
    FastAPI runs to its end; it is modelled as it runs when no other request
    touches the table in the meantime. *)

(** What a call yields: a value, the [HTTPException] it raised, or another
    exception that nothing in [main.py] catches. *)
Inductive outcome (A : Type) : Type :=
  | Ok (a : A)
  | HTTPException (status_code : nat) (detail : string)
  | Uncaught (cls : string).
Arguments Ok {A} a.
Arguments HTTPException {A} status_code detail.
Arguments Uncaught {A} cls.

(** ** Header strings

    Starlette decodes header bytes as latin-1: a header value is a string of
    characters below 256, one per byte. *)

(** [str.lower] on such a character: the letters A-Z and the capital
    letters of the range 192-222 (215, the multiplication sign, is not one)
    move up by 32. *)
Definition lower_char (c : Ascii.ascii) : Ascii.ascii :=
  let n := Ascii.N_of_ascii c in
  if ((65 <=? n) && (n <=? 90) || (192 <=? n) && (n <=? 222) && negb (n =? 215))%N
  then Ascii.ascii_of_N (n + 32) else c.

Fixpoint py_lower (s : string) : string :=
  match s with
  | EmptyString => EmptyString
  | String c rest => String (lower_char c) (py_lower rest)
  end.

(** [str.isspace] below 256: tab to carriage return, the four separators
    28-31, the space, NEL and the no-break space. *)
Definition py_isspace (c : Ascii.ascii) : bool :=
  let n := Ascii.N_of_ascii c in
  ((9 <=? n) && (n <=? 13) || (28 <=? n) && (n <=? 32)
   || (n =? 133) || (n =? 160))%N.

Fixpoint py_lstrip (s : string) : string :=
  match s with
  | EmptyString => EmptyString
  | String c rest => if py_isspace c then py_lstrip rest else s
  end.

Fixpoint py_rstrip (s : string) : string :=
  match s with
  | EmptyString => EmptyString
  | String c rest =>
      match py_rstrip rest with
      | EmptyString => if py_isspace c then EmptyString else String c EmptyString
      | kept => String c kept
      end
  end.

(** [s.strip()] *)
Definition py_strip (s : string) : string := py_rstrip (py_lstrip s).

(** The first space of [s]: what stands before it and what stands after. *)
Fixpoint partition_space (s : string) : option (string * string) :=
  match s with
  | EmptyString => None
  | String c rest =>
      if Ascii.eqb c " "%char then Some (EmptyString, rest)
      else match partition_space rest with
           | Some (before, after) => Some (String c before, after)
           | None => None
           end
  end.

(** [s.split(" ", 1)] *)
Definition py_split_space_1 (s : string) : list string :=
  match partition_space s with
  | Some (before, after) => [before; after]
  | None => [s]
  end.

(** Lines 102-105 of [require_user_api]: from the Authorization header, if
    there is one, to the token. *)
Definition bearer_token (authorization : option string) : outcome string :=
  let auth := default "" authorization in
  if negb (String.prefix "bearer " (py_lower auth))
  then HTTPException 401 "missing_bearer"
  else match py_split_space_1 auth !! 1%nat with
       | Some part => Ok (py_strip part)
       | None => Uncaught "IndexError"
       end.

(** ** The users table *)

(** The text of a form field or of a JSON string: its code points. *)
Definition str : Type := list N.

(** A row of the table that [init_db] creates. *)
Record user : Type := mkUser {
  user_id : Z;                      (* id INTEGER PRIMARY KEY AUTOINCREMENT *)
  username : str;                   (* username TEXT UNIQUE NOT NULL *)
  pass_hash : string;               (* pass_hash TEXT NOT NULL *)
  created_at : Z;                   (* created_at INTEGER NOT NULL *)
  spotify_refresh : option str;     (* spotify_refresh TEXT *)
  spotify_linked_at : option Z;     (* spotify_linked_at INTEGER *)
}.

(** The table in insertion order, and the counter SQLite keeps for an
    AUTOINCREMENT key: the largest id the table ever held. *)
Record Database : Type := mkDatabase {
  users : list user;
  sqlite_sequence : Z;
}.

(** What the sqlite3 module takes as parameters of a statement: a string
    is sent as UTF-8, which a lone surrogate has not, and an integer as a
    64-bit number. *)
Definition is_surrogate (n : N) : bool := ((55296 <=? n) && (n <=? 57343))%N.

Definition encodable (s : str) : bool :=
  forallb (λ n, negb (is_surrogate n)) s.

Definition max_rowid : Z := 9223372036854775807.
Definition min_rowid : Z := -9223372036854775808.

(** The row that [SELECT * FROM users WHERE username=?] selects. *)
Definition select_by_username (db : Database) (name : str) : option user :=
  find (λ row, bool_decide (username row = name)) (users db).

(** Lines 70-76: [execute] raises on a name it cannot encode, and
    [fetchone] gives the row or [None]. *)
Definition get_user_by_username (db : Database) (name : str)
    : outcome (option user) :=
  if encodable name then Ok (select_by_username db name)
  else Uncaught "UnicodeEncodeError".

(** The row that [SELECT * FROM users WHERE id=?] selects. *)
Definition select_by_id (db : Database) (uid : Z) : option user :=
  find (λ row, bool_decide (user_id row = uid)) (users db).

(** Lines 78-84: [execute] raises on an id that does not fit 64 bits. *)
Definition get_user_by_id (db : Database) (uid : Z) : outcome (option user) :=
  if ((min_rowid <=? uid) && (uid <=? max_rowid))%Z
  then Ok (select_by_id db uid)
  else Uncaught "OverflowError".

(** The id of the next row: one more than the largest id so far. *)
Definition next_rowid (db : Database) : Z :=
  foldr Z.max (sqlite_sequence db) (user_id <$> users db) + 1.

(** [INSERT INTO users (username, pass_hash, created_at) VALUES (?,?,?)] and
    [commit()]. The module refuses a name it cannot encode, and SQLite
    refuses the row when the ids are used up and when the username is
    taken. *)
Definition insert_user (db : Database) (name : str) (ph : string) (now : Z)
    : outcome Database :=
  if negb (encodable name) then Uncaught "UnicodeEncodeError"
  else if (max_rowid <? next_rowid db)%Z then Uncaught "OperationalError"
  else if select_by_username db name is Some _ then Uncaught "IntegrityError"
  else Ok (mkDatabase
             (users db ++ [mkUser (next_rowid db) name ph now None None])
             (next_rowid db)).

(** [str(user_id)] *)
Definition py_str (n : Z) : string := NilZero.string_of_int (Z.to_int n).

(** [bool(u["spotify_refresh"])]: neither NULL nor empty. *)
Definition is_linked (row : user) : bool :=
  match spotify_refresh row with
  | Some (_ :: _) => true
  | _ => false
  end.

(** The payload [create_jwt] signs. *)
Record jwt_payload : Type := mkPayload {
  sub : string;
  u : str;
  iat : Z;
  exp : Z;
}.

(** What the handlers answer. *)
Inductive response : Type :=
  | JSONError (status_code : nat) (error : string)
      (* JSONResponse({"error": error}, status_code=status_code) *)
  | Registered (token : string) (name : str)
      (* {"token": token, "username": name} *)
  | LoggedIn (token : string) (name : str) (spotify_linked : bool)
      (* {"token": ..., "username": ..., "spotify_linked": ...} *)
  | TemplateResponse (template : string) (error : string)
      (* templates.TemplateResponse(template, {..., "error": error, ...}) *)
  | RedirectWithToken (url : string) (lp_token : string).
      (* RedirectResponse(url, 302) and set_cookie("lp_token", lp_token) *)

(** A value of a JSON body, as far as the code tells values apart. *)
Inductive pyvalue : Type :=
  | JNull
  | JBool (b : bool)
  | JNumber (nonzero : bool)
  | JStr (s : str)
  | JArray (size : nat)
  | JObject (size : nat).

(** [bool(v)] *)
Definition truthy (v : pyvalue) : bool :=
  match v with
  | JNull => false
  | JBool b => b
  | JNumber nonzero => nonzero
  | JStr s => negb (bool_decide (s = []))
  | JArray size | JObject size => negb (size =? 0)%nat
  end.

(** [payload.get(key) or ""] *)
Definition get_or_empty (field : option pyvalue) : pyvalue :=
  match field with
  | Some v => if truthy v then v else JStr []
  | None => JStr []
  end.

(** [len(v)], which numbers and booleans have not. *)
Definition py_len (v : pyvalue) : option nat :=
  match v with
  | JStr s => Some (length s)
  | JArray size | JObject size => Some size
  | JNull | JBool _ | JNumber _ => None
  end.

(** What [main.py] imports and calls: the methods of [str], passlib's
    context, jose's encoder, and the environment. *)
Record Library : Type := mkLibrary {
  str_strip : str → str;                        (* s.strip() *)
  str_lower : str → str;                        (* s.lower() *)
  pwd_hash : str → outcome string;              (* pwd_context.hash *)
  pwd_verify : str → string → outcome bool;     (* pwd_context.verify *)
  jwt_encode : jwt_payload → string;            (* jwt.encode(_, JWT_SECRET, JWT_ALG) *)
  JWT_TTL_SECONDS : Z;
}.

Section Accounts.

Variable lib : Library.

(** Lines 59-62, with the clock reading [now]. *)
Definition create_jwt (uid : Z) (name : str) (now : Z) : string :=
  jwt_encode lib (mkPayload (py_str uid) name now (now + JWT_TTL_SECONDS lib)).

(** Lines 170-178 and 270-277, the part the two registrations share in the
    source line by line, from the hash on: insert, read the id back, sign.
    [answer] wraps the token as the endpoint does. *)
Definition store_hashed (answer : string → response) (name : str)
    (hashed : outcome string) (now_row now_token : Z) (db : Database)
    : Database * outcome response :=
  match hashed with
  | Ok ph =>
      match insert_user db name ph now_row with
      | Ok db' =>
          match get_user_by_username db' name with
          | Ok (Some row) =>
              (db', Ok (answer (create_jwt (user_id row) name now_token)))
          | Ok None => (db', Uncaught "TypeError")
          | HTTPException sc d => (db', HTTPException sc d)
          | Uncaught cls => (db', Uncaught cls)
          end
      | HTTPException sc d => (db, HTTPException sc d)
      | Uncaught cls => (db, Uncaught cls)
      end
  | HTTPException sc d => (db, HTTPException sc d)
  | Uncaught cls => (db, Uncaught cls)
  end.

(** Lines 169-178 and 269-277, with the hash of line 169 and 269. *)
Definition store_user (answer : string → response) (name password : str)
    (now_row now_token : Z) (db : Database) : Database * outcome response :=
  store_hashed answer name (pwd_hash lib password) now_row now_token db.

(** Lines 159-181. *)
Definition register_post (form_username form_password : str)
    (now_row now_token : Z) (db : Database) : Database * outcome response :=
  let name := str_lower lib (str_strip lib form_username) in
  if (length name <? 3)%nat || (32 <? length name)%nat then
    (db, Ok (TemplateResponse "register.html" "Usuário: 3 a 32 caracteres."))
  else if (length form_password <? 6)%nat then
    (db, Ok (TemplateResponse "register.html" "Senha: mínimo 6 caracteres."))
  else
    match get_user_by_username db name with
    | Ok (Some _) =>
        (db, Ok (TemplateResponse "register.html" "Esse usuário já existe."))
    | Ok None =>
        store_user (RedirectWithToken "/dashboard") name form_password
          now_row now_token db
    | HTTPException sc d => (db, HTTPException sc d)
    | Uncaught cls => (db, Uncaught cls)
    end.

(** Lines 261-277, for a JSON body whose username and password are strings,
    null or missing ([None] stands for the last two); [api_register_any]
    below is the endpoint on every body. *)
Definition api_register (payload_username payload_password : option str)
    (now_row now_token : Z) (db : Database) : Database * outcome response :=
  let name := str_lower lib (str_strip lib (default [] payload_username)) in
  let password := default [] payload_password in
  if (length name <? 3)%nat || (32 <? length name)%nat
     || (length password <? 6)%nat then
    (db, Ok (JSONError 400 "invalid_input"))
  else
    match get_user_by_username db name with
    | Ok (Some _) => (db, Ok (JSONError 409 "user_exists"))
    | Ok None =>
        store_user (λ token, Registered token name) name password
          now_row now_token db
    | HTTPException sc d => (db, HTTPException sc d)
    | Uncaught cls => (db, Uncaught cls)
    end.

(** Lines 190-193 and 256-259: the row of the name if the password
    verifies against its hash. [None] is the refusal. *)
Definition check_credentials (name password : str) (db : Database)
    : outcome (option user) :=
  match get_user_by_username db name with
  | Ok None => Ok None
  | Ok (Some row) =>
      match pwd_verify lib password (pass_hash row) with
      | Ok true => Ok (Some row)
      | Ok false => Ok None
      | HTTPException sc d => HTTPException sc d
      | Uncaught cls => Uncaught cls
      end
  | HTTPException sc d => HTTPException sc d
  | Uncaught cls => Uncaught cls
  end.

(** Lines 187-196. *)
Definition login_post (form_username form_password : str) (now : Z)
    (db : Database) : outcome response :=
  let name := str_lower lib (str_strip lib form_username) in
  match check_credentials name form_password db with
  | Ok None =>
      Ok (TemplateResponse "login.html" "Usuário ou senha inválidos.")
  | Ok (Some row) =>
      Ok (RedirectWithToken "/dashboard"
            (create_jwt (user_id row) (username row) now))
  | HTTPException sc d => HTTPException sc d
  | Uncaught cls => Uncaught cls
  end.

(** Lines 252-259, for a JSON body whose username and password are strings,
    null or missing; [api_login_any] below is the endpoint on every body. *)
Definition api_login (payload_username payload_password : option str)
    (now : Z) (db : Database) : outcome response :=
  let name := str_lower lib (str_strip lib (default [] payload_username)) in
  let password := default [] payload_password in
  match check_credentials name password db with
  | Ok None => Ok (JSONError 401 "invalid_credentials")
  | Ok (Some row) =>
      Ok (LoggedIn (create_jwt (user_id row) (username row) now)
            (username row) (is_linked row))
  | HTTPException sc d => HTTPException sc d
  | Uncaught cls => Uncaught cls
  end.

(** *** The JSON endpoints on every body

    [payload: Dict[str, Any]] holds whatever JSON the client sent. What the
    code does with a value depends on its kind only: whether it is true,
    whether it is a string, and whether it has a length. *)

(** What passlib does with a secret that is no string. *)
Variable hash_other : pyvalue → outcome string.
Variable verify_other : pyvalue → string → outcome bool.

(** [pwd_context.hash(password)] and [pwd_context.verify(password, h)] *)
Definition hash_value (password : pyvalue) : outcome string :=
  match password with
  | JStr s => pwd_hash lib s
  | other => hash_other other
  end.

Definition verify_value (password : pyvalue) (h : string) : outcome bool :=
  match password with
  | JStr s => pwd_verify lib s h
  | other => verify_other other h
  end.

(** Lines 261-277. *)
Definition api_register_any (payload_username payload_password : option pyvalue)
    (now_row now_token : Z) (db : Database) : Database * outcome response :=
  match get_or_empty payload_username with
  | JStr raw =>
      let name := str_lower lib (str_strip lib raw) in
      let password := get_or_empty payload_password in
      if (length name <? 3)%nat || (32 <? length name)%nat then
        (db, Ok (JSONError 400 "invalid_input"))
      else
        match py_len password with
        | None => (db, Uncaught "TypeError")
        | Some n =>
            if (n <? 6)%nat then (db, Ok (JSONError 400 "invalid_input"))
            else
              match get_user_by_username db name with
              | Ok (Some _) => (db, Ok (JSONError 409 "user_exists"))
              | Ok None =>
                  store_hashed (λ token, Registered token name) name
                    (hash_value password) now_row now_token db
              | HTTPException sc d => (db, HTTPException sc d)
              | Uncaught cls => (db, Uncaught cls)
              end
        end
  | _ => (db, Uncaught "AttributeError")
  end.

(** Lines 252-259. *)
Definition api_login_any (payload_username payload_password : option pyvalue)
    (now : Z) (db : Database) : outcome response :=
  match get_or_empty payload_username with
  | JStr raw =>
      let name := str_lower lib (str_strip lib raw) in
      let password := get_or_empty payload_password in
      match get_user_by_username db name with
      | Ok None => Ok (JSONError 401 "invalid_credentials")
      | Ok (Some row) =>
          match verify_value password (pass_hash row) with
          | Ok true =>
              Ok (LoggedIn (create_jwt (user_id row) (username row) now)
                    (username row) (is_linked row))
          | Ok false => Ok (JSONError 401 "invalid_credentials")
          | HTTPException sc d => HTTPException sc d
          | Uncaught cls => Uncaught cls
          end
      | HTTPException sc d => HTTPException sc d
      | Uncaught cls => Uncaught cls
      end
  | _ => Uncaught "AttributeError"
  end.

End Accounts.

(** ** Sessions: lines 64-68 and 86-112 *)

(** What [jwt.decode] does with a token: the claims, a [JWTError] (bad
    signature, expired, malformed) or another exception. *)
Inductive decoded (claims : Type) : Type :=
  | Decoded (data : claims)
  | JWTError
  | DecodeRaised (cls : string).
Arguments Decoded {claims} data.
Arguments JWTError {claims}.
Arguments DecodeRaised {claims} cls.

Section Sessions.

(** The dictionary of claims, with the two things the code does with it:
    [not data] and [int(data["sub"])], which raises when the key is missing
    or its value is no number. *)
Variable claims : Type.
Variable jwt_decode : string → decoded claims.
Variable claims_empty : claims → bool.
Variable claims_sub : claims → outcome Z.

(** Lines 64-68. *)
Definition read_jwt (token : string) : outcome (option claims) :=
  match jwt_decode token with
  | Decoded data => Ok (Some data)
  | JWTError => Ok None
  | DecodeRaised cls => Uncaught cls
  end.

(** Lines 86-93, [lp_token] being the cookie of that name if there is one. *)
Definition current_user_web (lp_token : option string) (db : Database)
    : outcome (option user) :=
  match lp_token with
  | None | Some EmptyString => Ok None
  | Some token =>
      match read_jwt token with
      | Ok None => Ok None
      | Ok (Some data) =>
          if claims_empty data then Ok None
          else match claims_sub data with
               | Ok uid => get_user_by_id db uid
               | HTTPException sc d => HTTPException sc d
               | Uncaught cls => Uncaught cls
               end
      | HTTPException sc d => HTTPException sc d
      | Uncaught cls => Uncaught cls
      end
  end.

(** Lines 95-99. *)
Definition require_user_web (lp_token : option string) (db : Database)
    : outcome user :=
  match current_user_web lp_token db with
  | Ok (Some row) => Ok row
  | Ok None => HTTPException 401 "not_logged_in"
  | HTTPException sc d => HTTPException sc d
  | Uncaught cls => Uncaught cls
  end.

(** Lines 101-112. *)
Definition require_user_api (authorization : option string) (db : Database)
    : outcome user :=
  match bearer_token authorization with
  | Ok token =>
      match read_jwt token with
      | Ok None => HTTPException 401 "bad_token"
      | Ok (Some data) =>
          if claims_empty data then HTTPException 401 "bad_token"
          else match claims_sub data with
               | Ok uid =>
                   match get_user_by_id db uid with
                   | Ok (Some row) => Ok row
                   | Ok None => HTTPException 401 "no_user"
                   | HTTPException sc d => HTTPException sc d
                   | Uncaught cls => Uncaught cls
                   end
               | HTTPException sc d => HTTPException sc d
               | Uncaught cls => Uncaught cls
               end
      | HTTPException sc d => HTTPException sc d
      | Uncaught cls => Uncaught cls
      end
  | HTTPException sc d => HTTPException sc d
  | Uncaught cls => Uncaught cls
  end.

End Sessions.

(** A decoder for the scenarios: the token is the decimal id of its user,
    and only the token 1 is signed. *)
Definition toy_decode (token : string) : decoded Z :=
  if String.eqb token "1" then Decoded 1%Z else JWTError.

(** The guarantees of the schema: usernames and ids are unique. *)
Definition table_ok (db : Database) : Prop :=
  NoDup (username <$> users db) ∧ NoDup (user_id <$> users db).

(** A library for the scenarios: strings are kept as they are, the hash of
    a password is a fixed text that verifies for every password, and a
    token is the subject of its payload. *)
Definition plain_library : Library :=
  mkLibrary (λ s, s) (λ s, s) (λ _, Ok "hash") (λ _ _, Ok true) sub 604800.

Definition empty_database : Database := mkDatabase [] 0.

(** The code points of alice and of the password secret1. *)
Definition alice : str := [97; 108; 105; 99; 101]%N.
Definition secret1 : str := [115; 101; 99; 114; 101; 116; 49]%N.

(** Membership goals over the unions and differences of [Join] and [Leave]. *)
Ltac membership :=
  set_unfold; intuition (subst; try congruence; auto).

(** ** The registry operations *)

Section Registry.

Implicit Types (d : Rooms) (room : string) (ws c : WebSocket).

Lemma members_Join d room ws :
  members (Join d room ws) room = members d room ∪ {[ws]}.
Proof.
  unfold members, Join.
  destruct (d !! room) as [s|] eqn:E; rewrite lookup_insert_eq; simpl; done.
Qed.

Lemma members_Join_ne d room room' ws :
  room ≠ room' → Join d room ws !! room' = d !! room'.
Proof.
  intros Hne. unfold Join.
  destruct (d !! room); by rewrite lookup_insert_ne.
Qed.

Lemma Join_lookup d room ws :
  Join d room ws !! room = Some (members d room ∪ {[ws]}).
Proof.
  unfold members, Join.
  destruct (d !! room) as [s|] eqn:E; by rewrite lookup_insert_eq.
Qed.

Lemma Join_Join d room ws : Join (Join d room ws) room ws = Join d room ws.
Proof.
  apply map_eq. intros k.
  destruct (decide (room = k)) as [<-|Hne].
  - rewrite !Join_lookup, members_Join. f_equal. membership.
  - by rewrite !members_Join_ne.
Qed.

Lemma Leave_lookup d room ws :
  Leave d room ws !! room = (λ s, s ∖ {[ws]}) <$> d !! room.
Proof.
  unfold Leave.
  destruct (d !! room) as [s|] eqn:E; simpl; [by rewrite lookup_insert_eq | done].
Qed.

Lemma Leave_lookup_ne d room room' ws :
  room ≠ room' → Leave d room ws !! room' = d !! room'.
Proof.
  intros Hne. unfold Leave.
  destruct (d !! room); [by rewrite lookup_insert_ne | done].
Qed.

Lemma members_Leave d room ws :
  members (Leave d room ws) room = members d room ∖ {[ws]}.
Proof.
  unfold members. rewrite Leave_lookup.
  destruct (d !! room); simpl; [done | membership].
Qed.

Lemma Leave_absent d room ws : ws ∉ members d room → Leave d room ws = d.
Proof.
  unfold members, Leave. intros Hnot.
  destruct (d !! room) as [s|] eqn:E; simpl in *; [|done].
  apply insert_id. rewrite E. f_equal. membership.
Qed.

Lemma dom_Leave d room ws : dom (Leave d room ws) = dom d.
Proof.
  unfold Leave. destruct (d !! room) as [s|] eqn:E; [|done].
  rewrite dom_insert_L.
  assert (room ∈ dom d) by (apply elem_of_dom; eauto).
  membership.
Qed.

Lemma dom_Join d room ws : dom (Join d room ws) = {[room]} ∪ dom d.
Proof.
  unfold Join. destruct (d !! room); by rewrite dom_insert_L.
Qed.

End Registry.

(** ** The fan-out loop *)

Section FanOut.

Variable net : Transport.

Implicit Types (w : World) (msg room : string) (c ws : WebSocket)
  (l : list WebSocket).

Lemma for_each_cons {A} (x : A) (rest : list A) (body : A → M unit) w :
  for_each (x :: rest) body w =
  match body x w with
  | (w', Return _) => for_each rest body w'
  | (w', Raise e) => (w', Raise e)
  end.
Proof. reflexivity. Qed.

(** One turn of the loop adds one event and leaves the dictionary alone;
    it raises only what [except Exception] lets through. *)
Lemma relay_world msg c w :
  (relay net msg c w).1 =
  mkWorld (rooms w) (wire w ++ [outcome_event net (wire w) c msg]).
Proof.
  unfold relay, try_except_pass, send_text, outcome_event.
  destruct (net (wire w) c msg) as [e|]; [|done].
  by destruct (isinstance_Exception e).
Qed.

Lemma relay_result msg c w :
  (relay net msg c w).2 =
  match net (wire w) c msg with
  | Some e => if isinstance_Exception e then Return tt else Raise e
  | None => Return tt
  end.
Proof.
  unfold relay, try_except_pass, send_text.
  destruct (net (wire w) c msg) as [e|]; [|done].
  by destruct (isinstance_Exception e).
Qed.

Lemma relay_returns msg c w :
  raises_errors_only net → (relay net msg c w).2 = Return tt.
Proof.
  intros Herr. rewrite relay_result.
  destruct (net (wire w) c msg) as [e|] eqn:E; [|done].
  by rewrite (Herr _ _ _ _ E).
Qed.

(** Whatever the sends do, the loop leaves the dictionary alone and only
    appends to the wire, events of the loop in the order of the list. *)
Lemma for_each_relay_frame msg l w :
  rooms (for_each l (relay net msg) w).1 = rooms w ∧
  ∃ evs, wire (for_each l (relay net msg) w).1 = wire w ++ evs ∧
         evs `prefix_of` loop_events net msg l (wire w).
Proof.
  revert w. induction l as [|c l IH]; intros w.
  - split; [done|]. exists []. simpl. rewrite app_nil_r. split; [done|].
    apply prefix_nil.
  - rewrite for_each_cons.
    pose proof (relay_world msg c w) as Hw.
    destruct (relay net msg c w) as [w1 [[]|e]] eqn:E; simpl in Hw; subst w1.
    + destruct (IH (mkWorld (rooms w) (wire w ++ [outcome_event net (wire w) c msg])))
        as [Hrooms (evs & Hwire & Hpre)].
      simpl in *. split; [done|].
      exists (outcome_event net (wire w) c msg :: evs). split.
      * rewrite Hwire. by rewrite <- app_assoc.
      * by apply prefix_cons.
    + simpl. split; [done|].
      exists [outcome_event net (wire w) c msg]. split; [done|].
      apply prefix_cons, prefix_nil.
Qed.

(** When the sends raise nothing but errors, the loop runs to its end. *)
Lemma for_each_relay_complete msg l w :
  raises_errors_only net →
  for_each l (relay net msg) w =
  (mkWorld (rooms w) (wire w ++ loop_events net msg l (wire w)), Return tt).
Proof.
  intros Herr. revert w. induction l as [|c l IH]; intros w.
  - simpl. rewrite app_nil_r. by destruct w.
  - rewrite for_each_cons.
    pose proof (relay_world msg c w) as Hw.
    pose proof (relay_returns msg c w Herr) as Hr.
    destruct (relay net msg c w) as [w1 r]; simpl in Hw, Hr; subst w1 r.
    rewrite IH. simpl. by rewrite <- app_assoc.
Qed.

Lemma loop_events_target msg l tr :
  target <$> loop_events net msg l tr = l.
Proof.
  revert tr. induction l as [|c l IH]; intros tr; [done|].
  simpl. rewrite IH. f_equal.
  unfold outcome_event. by destruct (net tr c msg).
Qed.

Lemma loop_events_payload msg l tr :
  Forall (λ ev, payload_of ev = msg) (loop_events net msg l tr).
Proof.
  revert tr. induction l as [|c l IH]; intros tr; [constructor|].
  simpl. constructor; [|apply IH].
  unfold outcome_event. by destruct (net tr c msg).
Qed.

Lemma new_events_app w evs :
  new_events w (mkWorld (rooms w) (wire w ++ evs)) = evs.
Proof. unfold new_events. simpl. by rewrite drop_app_length. Qed.

Lemma new_events_wire w w' evs :
  wire w' = wire w ++ evs → new_events w w' = evs.
Proof. unfold new_events. intros ->. by rewrite drop_app_length. Qed.

(** The sends of a fan-out that runs to its end: one per member. *)
Lemma Broadcast_complete room ws msg w :
  raises_errors_only net →
  Broadcast net room ws msg w =
  (mkWorld (rooms w)
     (wire w ++ loop_events net msg (snapshot room w) (wire w)), Return tt).
Proof. intros Herr. unfold Broadcast. by apply for_each_relay_complete. Qed.

Lemma Broadcast_rooms room ws msg w :
  rooms (Broadcast net room ws msg w).1 = rooms w.
Proof. unfold Broadcast. apply for_each_relay_frame. Qed.

Lemma Broadcast_new_events room ws msg w :
  new_events w (Broadcast net room ws msg w).1
    `prefix_of` loop_events net msg (snapshot room w) (wire w).
Proof.
  unfold Broadcast.
  destruct (for_each_relay_frame msg (snapshot room w) w) as [_ (evs & Hwire & Hpre)].
  by rewrite (new_events_wire _ _ _ Hwire).
Qed.

Lemma snapshot_NoDup room w : NoDup (snapshot room w).
Proof. apply NoDup_elements. Qed.

Lemma elem_of_snapshot room w c : c ∈ snapshot room w ↔ c ∈ members (rooms w) room.
Proof. unfold snapshot. apply elem_of_elements. Qed.

End FanOut.

(** ** Counting the events of a fan-out *)

Section Counting.

Implicit Types (evs : list event) (c : WebSocket) (msg : string).

Lemma calls_on_nil evs c : c ∉ target <$> evs → calls_on c evs = [].
Proof.
  unfold calls_on. induction evs as [|ev evs IH]; [done|].
  rewrite fmap_cons, not_elem_of_cons. intros [Hne Hnot].
  rewrite filter_cons. case_decide; [congruence | auto].
Qed.

Lemma calls_on_unique evs c :
  NoDup (target <$> evs) → c ∈ target <$> evs →
  ∃ ev, calls_on c evs = [ev] ∧ ev ∈ evs ∧ target ev = c.
Proof.
  unfold calls_on. induction evs as [|ev evs IH]; simpl.
  - intros _ Hin. by apply elem_of_nil in Hin.
  - rewrite NoDup_cons. intros [Hnot Hnd] Hin.
    rewrite filter_cons. case_decide as Hc.
    + subst c. exists ev. fold (calls_on (target ev) evs).
      rewrite (calls_on_nil _ _ Hnot).
      split; [done|]. split; [apply list_elem_of_here | done].
    + apply elem_of_cons in Hin as [Heq|Hin]; [congruence|].
      destruct (IH Hnd Hin) as (ev' & Hf & Hel & Ht).
      exists ev'. split; [done|]. split; [by apply list_elem_of_further | done].
Qed.

Lemma copies_nil evs c msg : c ∉ target <$> evs → copies c msg evs = 0.
Proof.
  unfold copies. induction evs as [|ev evs IH]; [done|].
  rewrite fmap_cons, not_elem_of_cons. intros [Hne Hnot].
  rewrite filter_cons. case_decide as Hev; [by subst ev | auto].
Qed.

Lemma copies_unique evs c msg :
  NoDup (target <$> evs) → Delivered c msg ∈ evs → copies c msg evs = 1.
Proof.
  unfold copies. induction evs as [|ev evs IH]; simpl.
  - intros _ Hin. by apply elem_of_nil in Hin.
  - rewrite NoDup_cons. intros [Hnot Hnd] Hin.
    rewrite filter_cons. case_decide as Hev.
    + subst ev. simpl in *. fold (copies c msg evs).
      by rewrite (copies_nil _ _ _ Hnot).
    + apply elem_of_cons in Hin as [Heq|Hin]; [congruence | auto].
Qed.

Lemma loop_events_shape net msg l tr ev :
  ev ∈ loop_events net msg l tr →
  ev = Delivered (target ev) msg ∨ ∃ e, ev = SendRaised (target ev) msg e.
Proof.
  revert tr. induction l as [|c l IH]; intros tr; simpl.
  - intros Hin. by apply elem_of_nil in Hin.
  - intros [->|Hin]%elem_of_cons; [|by eapply IH].
    unfold outcome_event. destruct (net tr c msg); simpl; eauto.
Qed.

End Counting.

(** The transports of the scenarios raise errors only. *)
Lemma always_up_errors_only : raises_errors_only always_up.
Proof. intros tr c m e. unfold always_up. discriminate. Qed.

Lemma broken_errors_only b : raises_errors_only (broken b).
Proof.
  intros tr c m e. unfold broken.
  case_decide; [|discriminate]. by intros [= <-].
Qed.

(** ** The events of a Broadcast *)

Lemma Broadcast_events_complete net room ws msg w :
  raises_errors_only net →
  Broadcast_events net room ws msg w =
  loop_events net msg (snapshot room w) (wire w).
Proof.
  intros Herr. unfold Broadcast_events.
  rewrite (Broadcast_complete net room ws msg w Herr). simpl.
  apply new_events_app.
Qed.

Lemma Broadcast_targets net room ws msg w :
  raises_errors_only net →
  target <$> Broadcast_events net room ws msg w = snapshot room w.
Proof.
  intros Herr. rewrite Broadcast_events_complete by done.
  apply loop_events_target.
Qed.

Lemma Broadcast_events_shape net room ws msg w ev :
  ev ∈ Broadcast_events net room ws msg w →
  ev = Delivered (target ev) msg ∨ ∃ e, ev = SendRaised (target ev) msg e.
Proof.
  intros Hin. eapply loop_events_shape.
  eapply elem_of_prefix; [exact Hin|]. apply Broadcast_new_events.
Qed.

(** Every event of a fan-out is a call on a member of the room. *)
Lemma Broadcast_events_member net room ws msg w ev :
  ev ∈ Broadcast_events net room ws msg w →
  target ev ∈ members (rooms w) room.
Proof.
  intros Hin. apply elem_of_snapshot.
  rewrite <- (loop_events_target net msg (snapshot room w) (wire w)).
  apply list_elem_of_fmap. exists ev. split; [done|].
  eapply elem_of_prefix; [exact Hin|]. apply Broadcast_new_events.
Qed.

(** The loop runs over a copy of a set: no socket is called twice. *)
Lemma Broadcast_targets_NoDup net room ws msg w :
  raises_errors_only net →
  NoDup (target <$> Broadcast_events net room ws msg w).
Proof.
  intros Herr. rewrite Broadcast_targets by done. apply snapshot_NoDup.
Qed.

(** A member on which no call raised got the message. *)
Lemma Broadcast_delivers_unless_failed net room ws msg w c :
  raises_errors_only net →
  c ∈ members (rooms w) room →
  ¬ send_failed c (Broadcast_events net room ws msg w) →
  Delivered c msg ∈ Broadcast_events net room ws msg w.
Proof.
  intros Herr Hc Hok.
  apply elem_of_snapshot in Hc.
  rewrite <- (Broadcast_targets net room ws msg w Herr) in Hc.
  apply list_elem_of_fmap in Hc as (ev & Ht & Hev).
  destruct (Broadcast_events_shape _ _ _ _ _ _ Hev) as [Heq|[e Heq]];
    rewrite <- Ht in Heq.
  - by rewrite <- Heq.
  - exfalso. apply Hok. exists msg, e. by rewrite <- Heq.
Qed.

Lemma join_returns room ws w :
  join room ws w = (mkWorld (Join (rooms w) room ws) (wire w), Return tt).
Proof. reflexivity. Qed.

Lemma leave_returns room ws w :
  leave room ws w = (mkWorld (Leave (rooms w) room ws) (wire w), Return tt).
Proof. reflexivity. Qed.

(** ** The tasks of the event loop *)

Section Tasks.

Variable net : Transport.

Implicit Types (w : World) (room msg : string) (ws : WebSocket) (p : pc).

Lemma unwind_world room ws e w :
  (unwind room ws e w).2 = mkWorld (Leave (rooms w) room ws) (wire w).
Proof.
  unfold unwind, try_finally, try_except_pass, raise.
  by destruct (isinstance_WebSocketDisconnect e).
Qed.

(** What leaves the handler is what left the loop, unless it is the
    disconnect that line 320 catches. *)
Lemma unwind_pc room ws e w :
  (unwind room ws e w).1 =
  Done (if isinstance_WebSocketDisconnect e then Return tt else Raise e).
Proof.
  unfold unwind, try_finally, try_except_pass, raise.
  by destruct (isinstance_WebSocketDisconnect e).
Qed.

Lemma ws_room_steps_cons room ws p sg sgs w :
  ws_room_steps net room ws p (sg :: sgs) w =
  ws_room_steps net room ws (ws_room_step net room ws p sg w).1 sgs
    (ws_room_step net room ws p sg w).2.
Proof. simpl. by destruct (ws_room_step net room ws p sg w). Qed.

Lemma ws_room_step_AtSend room ws msg c l w :
  ws_room_step net room ws (AtSend msg c l) SendAnswered w =
  match relay net msg c w with
  | (w', Return _) => (next_client msg l, w')
  | (w', Raise e) => unwind room ws e w'
  end.
Proof. reflexivity. Qed.

(** No step of a handler deletes a key of the dictionary. *)
Lemma ws_room_step_dom room ws p sg w :
  dom (rooms w) ⊆ dom (rooms (ws_room_step net room ws p sg w).2).
Proof.
  destruct p as [| |msg c rest|r], sg; simpl; try done.
  - rewrite dom_Join. membership.
  - rewrite unwind_world. simpl. by rewrite dom_Leave.
  - pose proof (relay_world net msg c w) as Hw.
    destruct (relay net msg c w) as [w1 [[]|e]]; simpl in Hw; subst w1; [done|].
    rewrite unwind_world. simpl. by rewrite dom_Leave.
Qed.

Lemma server_step_dom s lb :
  dom (rooms (world s)) ⊆ dom (rooms (world (server_step net s lb))).
Proof.
  destruct lb as [ws room|ws sg]; simpl.
  - by destruct (tasks s !! ws).
  - destruct (tasks s !! ws) as [[room p]|]; [|done].
    pose proof (ws_room_step_dom room ws p sg (world s)) as Hdom.
    by destruct (ws_room_step net room ws p sg (world s)).
Qed.

Lemma run_dom lbs s :
  dom (rooms (world s)) ⊆ dom (rooms (world (run net lbs s))).
Proof.
  revert s. induction lbs as [|lb lbs IH]; intros s; [done|].
  simpl. etrans; [apply server_step_dom | apply IH].
Qed.



(** A handler that waits for a message ignores send answers, and a handler
    that ended ignores everything. *)
Lemma ws_room_steps_AtReceive room ws n w :
  ws_room_steps net room ws AtReceive (repeat SendAnswered n) w = (AtReceive, w).
Proof. induction n as [|n IH]; [done | exact IH]. Qed.

Lemma ws_room_steps_Done room ws r sgs w :
  ws_room_steps net room ws (Done r) sgs w = (Done r, w).
Proof. induction sgs as [|sg sgs IH]; [done|]. by destruct sg. Qed.

Lemma outcome_event_payload tr c msg :
  payload_of (outcome_event net tr c msg) = msg.
Proof. unfold outcome_event. by destruct (net tr c msg). Qed.

(** However far the handler gets through its list, and however its loop
    ends, what it puts on the wire carries the message of this fan-out. *)
Lemma ws_room_steps_payload room ws msg l n w :
  ∃ evs,
    wire (ws_room_steps net room ws (next_client msg l)
            (repeat SendAnswered n) w).2 = wire w ++ evs ∧
    Forall (λ ev, payload_of ev = msg) evs.
Proof.
  revert l w. induction n as [|n IH]; intros l w.
  - exists []. by rewrite app_nil_r.
  - destruct l as [|c l].
    + change (next_client msg []) with AtReceive.
      rewrite ws_room_steps_AtReceive. exists []. by rewrite app_nil_r.
    + change (repeat SendAnswered (S n))
        with (SendAnswered :: repeat SendAnswered n).
      change (next_client msg (c :: l)) with (AtSend msg c l).
      rewrite ws_room_steps_cons, ws_room_step_AtSend.
      pose proof (relay_world net msg c w) as Hw.
      destruct (relay net msg c w) as [w1 [[]|e]]; simpl in Hw; subst w1.
      * destruct (IH l (mkWorld (rooms w)
                          (wire w ++ [outcome_event net (wire w) c msg])))
          as (evs & Hwire & Hall).
        exists (outcome_event net (wire w) c msg :: evs). split.
        -- cbn [fst snd]. rewrite Hwire. simpl. by rewrite <- app_assoc.
        -- constructor; [apply outcome_event_payload | done].
      * pose proof (unwind_world room ws e
                      (mkWorld (rooms w)
                         (wire w ++ [outcome_event net (wire w) c msg]))) as Hu.
        pose proof (unwind_pc room ws e
                      (mkWorld (rooms w)
                         (wire w ++ [outcome_event net (wire w) c msg]))) as Hp.
        destruct (unwind room ws e _) as [p' w']; simpl in Hu, Hp; subst p' w'.
        cbn [fst snd]. rewrite ws_room_steps_Done. simpl.
        exists [outcome_event net (wire w) c msg]. split; [done|].
        constructor; [apply outcome_event_payload | constructor].
Qed.

(** What one step of a handler can do to the dictionary. *)
Lemma ws_room_step_rooms room ws p sg w :
  rooms (ws_room_step net room ws p sg w).2 = rooms w ∨
  rooms (ws_room_step net room ws p sg w).2 = Join (rooms w) room ws ∨
  rooms (ws_room_step net room ws p sg w).2 = Leave (rooms w) room ws.
Proof.
  destruct p as [| |msg c rest|r], sg; simpl; auto.
  - rewrite unwind_world. auto.
  - pose proof (relay_world net msg c w) as Hw.
    destruct (relay net msg c w) as [w1 [[]|e]]; simpl in Hw; subst w1; auto.
    rewrite unwind_world. auto.
Qed.

(** The step of another handler does not unregister [ws]. *)
Lemma ws_room_step_other room ws room' ws' p sg w :
  ws ≠ ws' →
  ws ∈ members (rooms w) room →
  ws ∈ members (rooms (ws_room_step net room' ws' p sg w).2) room.
Proof.
  intros Hne Hin.
  destruct (ws_room_step_rooms room' ws' p sg w) as [-> | [-> | ->]];
    [done | |]; destruct (decide (room' = room)) as [->|Hr].
  - rewrite members_Join. membership.
  - unfold members. by rewrite members_Join_ne.
  - rewrite members_Leave. membership.
  - unfold members. by rewrite Leave_lookup_ne.
Qed.

(** The step of [ws] itself: it registers before it enters the loop and
    unregisters only as it leaves it. *)
Lemma ws_room_step_own room ws p sg w :
  (in_loop p = true → ws ∈ members (rooms w) room) →
  in_loop (ws_room_step net room ws p sg w).1 = true →
  ws ∈ members (rooms (ws_room_step net room ws p sg w).2) room.
Proof.
  intros Hin.
  destruct p as [| |msg c rest|r], sg; simpl; try (by auto); try done.
  - intros _. rewrite members_Join. membership.
  - by rewrite unwind_pc.
  - pose proof (relay_world net msg c w) as Hw.
    destruct (relay net msg c w) as [w1 [[]|e]]; simpl in Hw; subst w1.
    + intros _. by apply Hin.
    + by rewrite unwind_pc.
Qed.

Lemma server_step_registered s lb :
  handlers_registered s → handlers_registered (server_step net s lb).
Proof.
  intros HI ws room p. destruct lb as [ws' room'|ws' sg]; simpl.
  - destruct (tasks s !! ws') as [t|] eqn:E; [apply HI|]. simpl.
    destruct (decide (ws' = ws)) as [->|Hne].
    + rewrite lookup_insert_eq. by intros [= <- <-].
    + rewrite lookup_insert_ne by done. apply HI.
  - destruct (tasks s !! ws') as [[room' p']|] eqn:E; [|apply HI].
    pose proof (ws_room_step_own room' ws' p' sg (world s)) as Hown.
    pose proof (λ r Hne, ws_room_step_other r ws room' ws' p' sg (world s) Hne)
      as Hother.
    destruct (ws_room_step net room' ws' p' sg (world s)) as [p'' w'].
    simpl in *.
    destruct (decide (ws' = ws)) as [->|Hne].
    + rewrite lookup_insert_eq. intros [= <- <-]. apply Hown.
      by apply HI.
    + rewrite lookup_insert_ne by done. intros Ht Hp.
      apply Hother; [done|]. by eapply HI.
Qed.

(** In every state the server reaches, a handler inside its loop is a
    member of its own room: the copy its fan-out runs over contains it. *)
Lemma reachable_registered s : reachable net s → handlers_registered s.
Proof.
  intros [lbs <-]. unfold run.
  induction lbs as [|lb lbs IH] using rev_ind.
  - intros ws room p. simpl. by rewrite lookup_empty.
  - rewrite fold_left_app. simpl. by apply server_step_registered.
Qed.

(** A fan-out in progress keeps its copied list whatever the other
    handlers do in the meantime. *)
Lemma server_step_other_task s ws ws' sg :
  ws ≠ ws' →
  tasks (server_step net s (Wake ws' sg)) !! ws = tasks s !! ws.
Proof.
  intros Hne. simpl.
  destruct (tasks s !! ws') as [[room' p']|]; [|done].
  destruct (ws_room_step net room' ws' p' sg (world s)) as [p'' w'].
  simpl. by rewrite lookup_insert_ne.
Qed.

End Tasks.

(** * The properties of the room broadcaster *)

(** ** The fan-out *)

(** C1, as the claim states it, fails: the loop of lines 315-319 runs over
    the whole room and the sender is one of its members. With sockets 1 and
    2 in room r1 and all channels up, the message that 1 sent is sent to 1. *)
Lemma sender_is_not_excluded :
  ¬ (∀ net room ws msg w,
       ws ∈ members (rooms w) room →
       ws ∉ target <$> Broadcast_events net room ws msg w).
Proof.
  intros H.
  apply (H always_up "r1" 1 "hi" pair_r1).
  - by vm_compute.
  - apply list_elem_of_In. vm_compute. tauto.
Qed.

(** C1, amended: when sends raise nothing but errors, Broadcast calls Send
    on every current member of the room and on nobody else, the connection
    that sent the message included; a sender whose own channel does not
    fail gets its message back. *)
Theorem Broadcast_reaches_sender_too net room ws msg w :
  raises_errors_only net →
  ws ∈ members (rooms w) room →
  (∀ c, c ∈ target <$> Broadcast_events net room ws msg w
        ↔ c ∈ members (rooms w) room) ∧
  ws ∈ target <$> Broadcast_events net room ws msg w ∧
  (¬ send_failed ws (Broadcast_events net room ws msg w) →
   Delivered ws msg ∈ Broadcast_events net room ws msg w).
Proof.
  intros Herr Hws.
  assert (Hall : ∀ c, c ∈ target <$> Broadcast_events net room ws msg w
                      ↔ c ∈ members (rooms w) room).
  { intros c. rewrite Broadcast_targets by done. apply elem_of_snapshot. }
  split; [exact Hall|]. split; [by apply Hall|].
  intros Hok. by apply Broadcast_delivers_unless_failed.
Qed.

(** In room r1 with all channels up, socket 1 is called with its own
    message. *)
Lemma Broadcast_reaches_sender_too_witness :
  raises_errors_only always_up ∧
  1 ∈ members (rooms pair_r1) "r1" ∧
  1 ∈ target <$> Broadcast_events always_up "r1" 1 "hi" pair_r1.
Proof.
  split; [exact always_up_errors_only|].
  split; [by vm_compute|].
  refine (proj1 (proj2
    (Broadcast_reaches_sender_too always_up "r1" 1 "hi" pair_r1 _ _))).
  - exact always_up_errors_only.
  - by vm_compute.
Defined.

(** In every run of the server, whenever a handler receives a message it
    is itself in the list its fan-out runs over. *)
Lemma sender_in_own_snapshot net s ws room :
  reachable net s →
  tasks s !! ws = Some (room, AtReceive) →
  ws ∈ snapshot room (world s).
Proof.
  intros Hs Ht. apply elem_of_snapshot.
  by apply (reachable_registered net s Hs ws room AtReceive).
Qed.

(** C4, as the claim states it, fails: what [except Exception] does not
    catch ends the loop. With sockets 1, 2, 3 in room r2 and the task of the
    sender cancelled during the send to 2, which comes first in the copy,
    socket 3 is a member, no send to it failed, and it gets no copy. *)
Lemma cancellation_leaves_members_unserved :
  ¬ (∀ net room ws msg w c,
       c ∈ members (rooms w) room →
       ¬ send_failed c (Broadcast_events net room ws msg w) →
       copies c msg (Broadcast_events net room ws msg w) = 1).
Proof.
  intros H.
  assert (Hcopies : copies 3 "x"
            (Broadcast_events (cancelled_at 2) "r2" 1 "x" trio_r2) = 1).
  { apply H; [by vm_compute|].
    intros (m & e & Hin). apply list_elem_of_In in Hin.
    vm_compute in Hin. destruct Hin as [Hin|[]]. discriminate Hin. }
  vm_compute in Hcopies. discriminate Hcopies.
Qed.

(** C4, amended: in one Broadcast, when sends raise nothing but errors,
    [send_text] is called exactly once on every connection that is in the
    room when the loop starts, and a member whose send does not fail
    receives exactly one copy of the message. *)
Theorem Broadcast_exactly_one_copy net room ws msg w c :
  raises_errors_only net →
  c ∈ members (rooms w) room →
  length (calls_on c (Broadcast_events net room ws msg w)) = 1 ∧
  (¬ send_failed c (Broadcast_events net room ws msg w) →
   calls_on c (Broadcast_events net room ws msg w) = [Delivered c msg] ∧
   copies c msg (Broadcast_events net room ws msg w) = 1).
Proof.
  intros Herr Hc.
  pose proof (Broadcast_targets_NoDup net room ws msg w Herr) as Hnd.
  assert (Hin : c ∈ target <$> Broadcast_events net room ws msg w).
  { rewrite Broadcast_targets by done. by apply elem_of_snapshot. }
  destruct (calls_on_unique _ _ Hnd Hin) as (ev & Hcalls & Hev & Ht).
  split; [by rewrite Hcalls|].
  intros Hok.
  pose proof (Broadcast_delivers_unless_failed net room ws msg w c Herr Hc Hok)
    as Hdel.
  split; [|by apply copies_unique].
  rewrite Hcalls. f_equal.
  assert (Hin' : Delivered c msg ∈ calls_on c (Broadcast_events net room ws msg w)).
  { apply list_elem_of_filter. by split. }
  rewrite Hcalls in Hin'. by apply list_elem_of_singleton in Hin'.
Qed.

(** In room r2 with the channel of 2 broken, socket 3 is called once. *)
Lemma Broadcast_exactly_one_copy_witness :
  raises_errors_only (broken 2) ∧
  3 ∈ members (rooms trio_r2) "r2" ∧
  length (calls_on 3 (Broadcast_events (broken 2) "r2" 1 "x" trio_r2)) = 1.
Proof.
  split; [apply broken_errors_only|].
  split; [by vm_compute|].
  refine (proj1 (Broadcast_exactly_one_copy (broken 2) "r2" 1 "x" trio_r2 3 _ _)).
  - apply broken_errors_only.
  - by vm_compute.
Defined.

(** C9: Broadcast never mutates the registry. Whatever the sends do, fail or
    not, the dictionary after the fan-out is the dictionary before it. *)
Theorem Broadcast_never_mutates_registry net room ws msg w :
  rooms (Broadcast net room ws msg w).1 = rooms w.
Proof. apply Broadcast_rooms. Qed.



(** C2, as the claim states it, fails: [except Exception: pass] drops the
    error and nothing else. With sockets 1, 2, 3 in room r2 and the channel
    of 2 broken, 2 is a member after the fan-out of x. *)
Lemma failed_recipient_is_not_removed :
  ¬ (∀ net room ws msg w c,
       send_failed c (Broadcast_events net room ws msg w) →
       (c ∉ members (rooms (Broadcast net room ws msg w).1) room) ∧
       (∀ ws' msg', c ∉ target <$>
          Broadcast_events net room ws' msg' (Broadcast net room ws msg w).1)).
Proof.
  intros H.
  destruct (H (broken 2) "r2" 1 "x" trio_r2 2) as [Hgone _].
  - exists "x", (OtherException "RuntimeError").
    apply list_elem_of_In. vm_compute. tauto.
  - apply Hgone. by vm_compute.
Qed.

(** What the server reaches from a state it reached is reached. *)
Lemma reachable_run net lbs s :
  reachable net s → reachable net (run net lbs s).
Proof.
  intros [lbs0 <-]. exists (lbs0 ++ lbs). unfold run. apply fold_left_app.
Qed.

(** C2, amended: the failure of a send removes nobody. In every state the
    server reaches, the step in which the send to a recipient raises an
    error leaves the dictionary as it is and takes the sender on to the next
    socket of its copy. The recipient goes only when its own handler leaves
    its loop: in every later state in which that handler is still inside
    its loop the recipient is a member of the room, and a handler of the
    room that receives a message then copies it into the list of its
    fan-out and so calls it again. *)
Theorem failed_recipient_stays_member net s ws room msg c rest e :
  reachable net s →
  tasks s !! ws = Some (room, AtSend msg c rest) →
  net (wire (world s)) c msg = Some e →
  isinstance_Exception e = true →
  rooms (world (server_step net s (Wake ws SendAnswered))) = rooms (world s) ∧
  tasks (server_step net s (Wake ws SendAnswered)) !! ws
    = Some (room, next_client msg rest) ∧
  ∀ lbs,
    live (run net lbs (server_step net s (Wake ws SendAnswered))) c room →
    c ∈ members
          (rooms (world (run net lbs (server_step net s (Wake ws SendAnswered)))))
          room ∧
    ∀ ws' msg',
      tasks (run net lbs (server_step net s (Wake ws SendAnswered))) !! ws'
        = Some (room, AtReceive) →
      ∃ l,
        tasks (server_step net
                 (run net lbs (server_step net s (Wake ws SendAnswered)))
                 (Wake ws' (Received msg'))) !! ws'
          = Some (room, next_client msg' l) ∧
        c ∈ l.
Proof.
  intros Hs Ht Hnet Hcls.
  assert (Hstep : ws_room_step net room ws (AtSend msg c rest) SendAnswered
                    (world s)
                  = (next_client msg rest,
                     mkWorld (rooms (world s))
                       (wire (world s) ++ [SendRaised c msg e]))).
  { rewrite ws_room_step_AtSend.
    pose proof (relay_world net msg c (world s)) as Hw.
    pose proof (relay_result net msg c (world s)) as Hr.
    unfold outcome_event in Hw. rewrite Hnet in Hw, Hr. rewrite Hcls in Hr.
    destruct (relay net msg c (world s)) as [w1 r]. simpl in Hw, Hr.
    by subst w1 r. }
  split; [|split].
  - simpl. by rewrite Ht, Hstep.
  - simpl. rewrite Ht, Hstep. simpl. by rewrite lookup_insert_eq.
  - intros lbs Hlive.
    set (s' := run net lbs (server_step net s (Wake ws SendAnswered))) in *.
    assert (Hs' : reachable net s').
    { apply reachable_run.
      change (server_step net s (Wake ws SendAnswered))
        with (run net [Wake ws SendAnswered] s).
      by apply reachable_run. }
    assert (Hc : c ∈ members (rooms (world s')) room).
    { destruct Hlive as (p & Htc & Hp).
      by apply (reachable_registered net s' Hs' c room p). }
    split; [exact Hc|].
    intros ws' msg' Ht'. exists (snapshot room (world s')). split.
    + simpl. rewrite Ht'. simpl. by rewrite lookup_insert_eq.
    + by apply elem_of_snapshot.
Qed.

(** Socket 1 is about to send x to 2, whose channel is broken. The send
    fails; 1 goes on to send to itself; 2, still in its loop, is a member
    and is copied again when 1 receives the next message. *)
Lemma failed_recipient_stays_member_witness :
  reachable (broken 2) mid_fan_out ∧
  tasks mid_fan_out !! 1 = Some ("r", AtSend "x" 2 [1]) ∧
  broken 2 (wire (world mid_fan_out)) 2 "x"
    = Some (OtherException "RuntimeError") ∧
  live (run (broken 2) [Wake 1 SendAnswered]
          (server_step (broken 2) mid_fan_out (Wake 1 SendAnswered))) 2 "r" ∧
  2 ∈ members
        (rooms (world (run (broken 2) [Wake 1 SendAnswered]
                         (server_step (broken 2) mid_fan_out
                            (Wake 1 SendAnswered))))) "r".
Proof.
  assert (Hreach : reachable (broken 2) mid_fan_out) by (by eexists).
  assert (Htask : tasks mid_fan_out !! 1 = Some ("r", AtSend "x" 2 [1]))
    by (by vm_compute).
  assert (Hlive : live (run (broken 2) [Wake 1 SendAnswered]
                          (server_step (broken 2) mid_fan_out
                             (Wake 1 SendAnswered))) 2 "r").
  { exists AtReceive. split; by vm_compute. }
  split; [exact Hreach|]. split; [exact Htask|]. split; [reflexivity|].
  split; [exact Hlive|].
  pose proof (failed_recipient_stays_member (broken 2) mid_fan_out 1 "r" "x"
                2 [1] (OtherException "RuntimeError")
                Hreach Htask eq_refl eq_refl) as (_ & _ & Hlater).
  exact (proj1 (Hlater [Wake 1 SendAnswered] Hlive)).
Defined.

(** A loop that returns went through its whole list. *)
Lemma for_each_relay_returned net msg l w :
  (for_each l (relay net msg) w).2 = Return tt →
  wire (for_each l (relay net msg) w).1
  = wire w ++ loop_events net msg l (wire w).
Proof.
  revert w. induction l as [|c l IH]; intros w.
  - intros _. simpl. by rewrite app_nil_r.
  - rewrite for_each_cons.
    pose proof (relay_world net msg c w) as Hw.
    destruct (relay net msg c w) as [w1 [[]|e]]; simpl in Hw; subst w1; [|done].
    intros Hret. rewrite (IH _ Hret). simpl. by rewrite <- app_assoc.
Qed.

(** A loop over a list that is not empty calls its first socket. *)
Lemma for_each_relay_head net msg c l w :
  ∃ evs,
    wire (for_each (c :: l) (relay net msg) w).1
    = wire w ++ outcome_event net (wire w) c msg :: evs.
Proof.
  rewrite for_each_cons.
  pose proof (relay_world net msg c w) as Hw.
  destruct (relay net msg c w) as [w1 [[]|e]]; simpl in Hw; subst w1.
  - destruct (for_each_relay_frame net msg l
                (mkWorld (rooms w)
                   (wire w ++ [outcome_event net (wire w) c msg])))
      as [_ (evs & Hwire & _)].
    exists evs. rewrite Hwire. simpl. by rewrite <- app_assoc.
  - by exists [].
Qed.

(** C10: Broadcast forwards the payload verbatim. Every call of
    [send_text] of a fan-out carries the message the sender's
    [receive_text] returned, for the loop by itself and for the handler
    that runs it, however its sends end. And the calls are made: the loop
    calls the sockets of its copy of the room one after the other, the first
    in any case, all of them when it returns, and when sends raise nothing
    but errors every member is called exactly once, with that message. *)
Theorem Broadcast_payload_verbatim net room ws msg w :
  Forall (λ ev, payload_of ev = msg) (Broadcast_events net room ws msg w) ∧
  (∀ n, Forall (λ ev, payload_of ev = msg)
          (new_events w
             (ws_room_steps net room ws AtReceive
                (Received msg :: repeat SendAnswered n) w).2)) ∧
  (∀ c rest,
     snapshot room w = c :: rest →
     ∃ evs, Broadcast_events net room ws msg w
            = outcome_event net (wire w) c msg :: evs) ∧
  (∃ k, target <$> Broadcast_events net room ws msg w
        = take k (snapshot room w)) ∧
  ((Broadcast net room ws msg w).2 = Return tt →
   target <$> Broadcast_events net room ws msg w = snapshot room w) ∧
  (raises_errors_only net →
   ∀ c, c ∈ members (rooms w) room →
        ∃ ev, calls_on c (Broadcast_events net room ws msg w) = [ev] ∧
              target ev = c ∧ payload_of ev = msg).
Proof.
  split; [|split; [|split; [|split; [|split]]]].
  - apply Forall_forall. intros ev Hin.
    by destruct (Broadcast_events_shape _ _ _ _ _ _ Hin) as [->|[e ->]].
  - intros n.
    destruct (ws_room_steps_payload net room ws msg (snapshot room w) n w)
      as (evs & Hwire & Hall).
    change (ws_room_steps net room ws AtReceive
              (Received msg :: repeat SendAnswered n) w)
      with (ws_room_steps net room ws (next_client msg (snapshot room w))
              (repeat SendAnswered n) w).
    by rewrite (new_events_wire _ _ _ Hwire).
  - intros c rest Hsnap. unfold Broadcast_events, Broadcast. rewrite Hsnap.
    destruct (for_each_relay_head net msg c rest w) as [evs Hwire].
    exists evs. by apply new_events_wire.
  - destruct (Broadcast_new_events net room ws msg w) as [more Hmore].
    exists (length (Broadcast_events net room ws msg w)).
    rewrite <- (loop_events_target net msg (snapshot room w) (wire w)), Hmore.
    rewrite fmap_app, <- (length_fmap target), take_app_length. done.
  - intros Hret. unfold Broadcast_events, Broadcast in *.
    rewrite (new_events_wire _ _ _
               (for_each_relay_returned net msg (snapshot room w) w Hret)).
    apply loop_events_target.
  - intros Herr c Hc.
    pose proof (Broadcast_targets_NoDup net room ws msg w Herr) as Hnd.
    assert (Hin : c ∈ target <$> Broadcast_events net room ws msg w).
    { rewrite Broadcast_targets by done. by apply elem_of_snapshot. }
    destruct (calls_on_unique _ _ Hnd Hin) as (ev & Hcalls & Hev & Ht).
    exists ev. split; [done|]. split; [done|].
    by destruct (Broadcast_events_shape _ _ _ _ _ _ Hev) as [->|[e ->]].
Qed.

(** In room r2 the copy is 2, 3, 1 and the channel of 2 is broken: 2 is
    called first and in vain, and 3 is called once, with x. *)
Lemma Broadcast_payload_verbatim_witness :
  snapshot "r2" trio_r2 = 2 :: [3; 1] ∧
  raises_errors_only (broken 2) ∧
  3 ∈ members (rooms trio_r2) "r2" ∧
  (∃ evs, Broadcast_events (broken 2) "r2" 1 "x" trio_r2
          = outcome_event (broken 2) (wire trio_r2) 2 "x" :: evs) ∧
  (∃ ev, calls_on 3 (Broadcast_events (broken 2) "r2" 1 "x" trio_r2) = [ev] ∧
         target ev = 3 ∧ payload_of ev = "x").
Proof.
  assert (Hsnap : snapshot "r2" trio_r2 = 2 :: [3; 1]) by (by vm_compute).
  assert (Hin : 3 ∈ members (rooms trio_r2) "r2") by (by vm_compute).
  pose proof (Broadcast_payload_verbatim (broken 2) "r2" 1 "x" trio_r2)
    as (_ & _ & Hfirst & _ & _ & Hall).
  split; [exact Hsnap|]. split; [apply broken_errors_only|].
  split; [exact Hin|]. split.
  - exact (Hfirst 2 [3; 1] Hsnap).
  - exact (Hall (broken_errors_only 2) 3 Hin).
Defined.

(** ** Joining and leaving *)

(** C5: Join has no error case and is set-idempotent. The registration
    returns normally in every world; afterwards the room has an entry whose
    set is the old membership plus the connection; registering the same
    connection a second time changes nothing, and the connection is in the
    set exactly once. *)
Theorem Join_succeeds_and_is_idempotent d room ws tr :
  join room ws (mkWorld d tr) = (mkWorld (Join d room ws) tr, Return tt) ∧
  Join d room ws !! room = Some (members d room ∪ {[ws]}) ∧
  ws ∈ members (Join d room ws) room ∧
  Join (Join d room ws) room ws = Join d room ws ∧
  length (filter (λ c, c = ws)
            (elements (members (Join (Join d room ws) room ws) room))) = 1.
Proof.
  split; [reflexivity|]. split; [apply Join_lookup|].
  assert (Hin : ws ∈ members (Join d room ws) room).
  { rewrite members_Join. membership. }
  split; [exact Hin|]. split; [apply Join_Join|].
  rewrite Join_Join.
  pose proof (NoDup_elements (members (Join d room ws) room)) as Hnd.
  apply elem_of_elements in Hin.
  induction (elements (members (Join d room ws) room)) as [|x l IH].
  - by apply elem_of_nil in Hin.
  - apply NoDup_cons in Hnd as [Hx Hnd]. rewrite filter_cons.
    case_decide as Hxw.
    + subst x. simpl. f_equal.
      clear IH Hin Hnd. induction l as [|y l IH]; [done|].
      apply not_elem_of_cons in Hx as [Hne Hx]. rewrite filter_cons.
      case_decide; [congruence | auto].
    + apply elem_of_cons in Hin as [Heq|Hin]; [congruence | auto].
Qed.

(** C6: Leave is idempotent, and a no-op when the connection is not in the
    room's set (the room missing from the dictionary included); it never
    raises. *)
Theorem Leave_is_idempotent d room ws tr :
  Leave (Leave d room ws) room ws = Leave d room ws ∧
  (ws ∉ members d room → Leave d room ws = d) ∧
  leave room ws (mkWorld d tr) = (mkWorld (Leave d room ws) tr, Return tt).
Proof.
  split; [|split; [apply Leave_absent | reflexivity]].
  apply Leave_absent. rewrite members_Leave. membership.
Qed.

(** Socket 7 never joined r1: its leaving changes nothing. *)
Lemma Leave_is_idempotent_witness :
  (7 ∉ members (rooms pair_r1) "r1") ∧
  Leave (rooms pair_r1) "r1" 7 = rooms pair_r1.
Proof.
  assert (Hnot : 7 ∉ members (rooms pair_r1) "r1") by (by vm_compute).
  split; [exact Hnot|].
  exact (proj1 (proj2 (Leave_is_idempotent (rooms pair_r1) "r1" 7 [])) Hnot).
Defined.

(** C7: on a key that is missing from the dictionary, or whose set is
    empty, Broadcast and Leave return normally and change nothing. *)
Theorem absent_room_is_noop net room ws msg w :
  rooms w !! room = None ∨ rooms w !! room = Some ∅ →
  Broadcast net room ws msg w = (w, Return tt) ∧
  leave room ws w = (w, Return tt).
Proof.
  intros Hroom.
  assert (Hmem : members (rooms w) room = ∅).
  { unfold members. by destruct Hroom as [-> | ->]. }
  split.
  - unfold Broadcast, snapshot. rewrite Hmem, elements_empty. reflexivity.
  - rewrite leave_returns, Leave_absent; [by destruct w|].
    rewrite Hmem. membership.
Qed.

(** Nobody ever joined r9. *)
Lemma absent_room_is_noop_witness :
  (rooms pair_r1 !! "r9" = None ∨ rooms pair_r1 !! "r9" = Some ∅) ∧
  Broadcast always_up "r9" 1 "yo" pair_r1 = (pair_r1, Return tt) ∧
  leave "r9" 1 pair_r1 = (pair_r1, Return tt).
Proof.
  assert (Habs : rooms pair_r1 !! "r9" = None ∨ rooms pair_r1 !! "r9" = Some ∅)
    by (left; by vm_compute).
  split; [exact Habs|].
  exact (absent_room_is_noop always_up "r9" 1 "yo" pair_r1 Habs).
Defined.

(** C3, as the claim states it, fails: line 323 discards the socket from the
    set and never deletes a key. The last member leaving leaves the key with
    an empty set, and the server reaches such a dictionary as soon as its
    first client disconnects. *)
Lemma empty_room_is_not_deleted :
  ¬ (∀ d room ws,
       members d room = {[ws]} → Leave d room ws !! room = None) ∧
  ¬ (∀ net s room,
       reachable net s → rooms (world s) !! room ≠ Some ∅).
Proof.
  split.
  - intros H.
    assert (Hlast : members (Join ∅ "r" 1) "r" = {[1]}) by (by vm_compute).
    specialize (H (Join ∅ "r" 1) "r" 1 Hlast).
    vm_compute in H. discriminate H.
  - intros H.
    apply (H always_up
             (run always_up
                [Connect 1 "r"; Wake 1 Accepted;
                 Wake 1 (ReceiveRaised WebSocketDisconnect)] boot) "r").
    + by eexists.
    + by vm_compute.
Qed.

(** C3, amended: when a Leave removes the last member of a room, the room's
    entry stays in the registry with an empty membership set. Leave never
    deletes a key, and no step of any handler does: along every run of the
    server the set of room keys only grows. *)
Theorem Leave_keeps_the_empty_room d room ws :
  members d room = {[ws]} →
  Leave d room ws !! room = Some ∅ ∧
  dom (Leave d room ws) = dom d ∧
  ∀ net lbs s,
    rooms (world s) = Leave d room ws →
    room ∈ dom (rooms (world (run net lbs s))).
Proof.
  intros Hlast.
  assert (Hd : d !! room = Some {[ws]}).
  { unfold members in Hlast. destruct (d !! room) as [s|]; simpl in *.
    - by subst.
    - exfalso. assert (ws ∈ (∅ : gset WebSocket)) by (rewrite Hlast; membership).
      membership. }
  split; [|split].
  - rewrite Leave_lookup, Hd. simpl. f_equal. membership.
  - apply dom_Leave.
  - intros net lbs s Hs. apply (run_dom net lbs s).
    rewrite Hs, dom_Leave. apply elem_of_dom. eauto.
Qed.

(** Socket 1 joins room r and leaves it. *)
Lemma Leave_keeps_the_empty_room_witness :
  members (Join ∅ "r" 1) "r" = {[1]} ∧
  Leave (Join ∅ "r" 1) "r" 1 !! "r" = Some ∅.
Proof.
  assert (Hlast : members (Join ∅ "r" 1) "r" = {[1]}) by (by vm_compute).
  split; [exact Hlast|].
  exact (proj1 (Leave_keeps_the_empty_room (Join ∅ "r" 1) "r" 1 Hlast)).
Defined.

(** * Scenarios *)

(** Sockets 1 and 2 are in r1 and 1 sends hi: both are served, the sender
    too. *)
Example scenario_r1_hi :
  Broadcast_events always_up "r1" 1 "hi" pair_r1 =
  [Delivered 2 "hi"; Delivered 1 "hi"].
Proof. by vm_compute. Qed.

(** Then 2 leaves and 1 sends yo: 1 is served its own message. *)
Example scenario_r1_yo :
  Broadcast always_up "r1" 1 "yo" (mkWorld (Leave (rooms pair_r1) "r1" 2) []) =
  (mkWorld (Leave (rooms pair_r1) "r1" 2) [Delivered 1 "yo"], Return tt).
Proof. by vm_compute. Qed.

(** Sockets 1, 2, 3 are in r2, the channel of 2 is broken and 1 sends x. *)
Example scenario_r2_x :
  Broadcast_events (broken 2) "r2" 1 "x" trio_r2 =
  [SendRaised 2 "x" (OtherException "RuntimeError");
   Delivered 3 "x"; Delivered 1 "x"] ∧
  members (rooms (Broadcast (broken 2) "r2" 1 "x" trio_r2).1) "r2" =
  members (rooms trio_r2) "r2".
Proof. by vm_compute. Qed.

(** What [except Exception] does not catch ends the loop and the handler:
    the cancellation of the sender's task during the send to 2 leaves 3 and
    1 unserved, and the [finally] unregisters the sender. *)
Example scenario_cancelled :
  Broadcast (cancelled_at 2) "r2" 1 "x" trio_r2 =
  (mkWorld (rooms trio_r2)
     [SendRaised 2 "x" (BaseExceptionOnly "CancelledError")],
   Raise (BaseExceptionOnly "CancelledError")) ∧
  ws_room_steps (cancelled_at 2) "r2" 1 AtReceive
    [Received "x"; SendAnswered] trio_r2 =
  (Done (Raise (BaseExceptionOnly "CancelledError")),
   mkWorld (Leave (rooms trio_r2) "r2" 1)
     [SendRaised 2 "x" (BaseExceptionOnly "CancelledError")]).
Proof. by vm_compute. Qed.

(** Two clients of room r on the event loop: 1 receives hi and copies the
    room, 2 disconnects before 1 has sent to it, and 1 still calls it. *)
Example scenario_interleaved :
  let s := run always_up
             [Connect 1 "r"; Wake 1 Accepted; Connect 2 "r"; Wake 2 Accepted;
              Wake 1 (Received "hi");
              Wake 2 (ReceiveRaised WebSocketDisconnect);
              Wake 1 SendAnswered; Wake 1 SendAnswered] boot in
  wire (world s) = [Delivered 2 "hi"; Delivered 1 "hi"] ∧
  members (rooms (world s)) "r" = {[1]} ∧
  tasks s !! 1 = Some ("r", AtReceive) ∧
  tasks s !! 2 = Some ("r", Done (Return tt)).
Proof. by vm_compute. Qed.

(** * Further properties of [ws_room] *)

(** ** The dictionary under [Join] and [Leave] *)

Section RegistryAlgebra.

Implicit Types (d : Rooms) (room : string) (ws c : WebSocket).

Lemma members_Join_other d room room' ws :
  room ≠ room' → members (Join d room ws) room' = members d room'.
Proof. intros Hne. unfold members. by rewrite members_Join_ne. Qed.

Lemma members_Leave_other d room room' ws :
  room ≠ room' → members (Leave d room ws) room' = members d room'.
Proof. intros Hne. unfold members. by rewrite Leave_lookup_ne. Qed.

Lemma elem_of_members_Join d room ws c room' :
  c ∈ members (Join d room ws) room' ↔
  c ∈ members d room' ∨ (c = ws ∧ room' = room).
Proof.
  destruct (decide (room = room')) as [<-|Hne].
  - rewrite members_Join. membership.
  - rewrite members_Join_other by done.
    split; [by left | intros [H|[_ ->]]; [done | by destruct Hne]].
Qed.

Lemma elem_of_members_Leave d room ws c room' :
  c ∈ members (Leave d room ws) room' ↔
  c ∈ members d room' ∧ ¬ (c = ws ∧ room' = room).
Proof.
  destruct (decide (room = room')) as [<-|Hne].
  - rewrite members_Leave. membership.
  - rewrite members_Leave_other by done.
    split; [|by intros [H _]].
    intros H. split; [done|]. intros [_ ->]. by destruct Hne.
Qed.

(** Line 311 and line 323 change the membership of one socket in one room
    and nothing else: any other socket, and the same socket in any other
    room, is a member after the operation exactly when it was before. *)
Theorem Join_Leave_touch_one_membership d room ws c room' :
  (c, room') ≠ (ws, room) →
  (c ∈ members (Join d room ws) room' ↔ c ∈ members d room') ∧
  (c ∈ members (Leave d room ws) room' ↔ c ∈ members d room').
Proof.
  intros Hne.
  rewrite elem_of_members_Join, elem_of_members_Leave.
  split; split; try tauto.
  - intros [H|[-> ->]]; [done | by destruct Hne].
  - intros H. split; [done|]. intros [-> ->]. by destruct Hne.
Qed.

Lemma Join_Leave_touch_one_membership_witness :
  (2, "r1") ≠ (1, "r1") ∧
  (2 ∈ members (Leave (rooms pair_r1) "r1" 1) "r1" ↔
   2 ∈ members (rooms pair_r1) "r1").
Proof.
  assert (Hne : (2, "r1") ≠ (1, "r1")) by discriminate.
  split; [exact Hne|].
  exact (proj2 (Join_Leave_touch_one_membership (rooms pair_r1) "r1" 1 2 "r1" Hne)).
Defined.

(** Joining and then leaving is a round trip on the membership of every
    room; on the dictionary it is one only if the room had an entry: a room
    that the join created stays behind with an empty set. *)
Theorem Leave_after_Join d room ws :
  ws ∉ members d room →
  (∀ room', members (Leave (Join d room ws) room ws) room' = members d room') ∧
  (is_Some (d !! room) → Leave (Join d room ws) room ws = d) ∧
  (d !! room = None → Leave (Join d room ws) room ws = <[room := ∅]> d).
Proof.
  intros Hnot.
  assert (Hset : (members d room ∪ {[ws]}) ∖ {[ws]} = members d room)
    by membership.
  assert (Hdict : Leave (Join d room ws) room ws = <[room := members d room]> d).
  { unfold Leave. rewrite Join_lookup, Hset.
    unfold Join. destruct (d !! room); by rewrite insert_insert_eq. }
  split; [|split].
  - intros room'. destruct (decide (room = room')) as [<-|Hne].
    + by rewrite members_Leave, members_Join.
    + by rewrite members_Leave_other, members_Join_other.
  - intros [s Hs]. rewrite Hdict. apply insert_id.
    unfold members. by rewrite Hs.
  - intros Hnone. rewrite Hdict. unfold members. by rewrite Hnone.
Qed.

Lemma Leave_after_Join_witness :
  (3 ∉ members (rooms pair_r1) "r1") ∧
  Leave (Join (rooms pair_r1) "r1" 3) "r1" 3 = rooms pair_r1.
Proof.
  assert (Hnot : 3 ∉ members (rooms pair_r1) "r1") by (by vm_compute).
  split; [exact Hnot|].
  refine (proj1 (proj2 (Leave_after_Join (rooms pair_r1) "r1" 3 Hnot)) _).
  vm_compute. eauto.
Defined.

(** The order in which two different sockets register and unregister does
    not matter to the dictionary; two registrations commute in any case. *)
Theorem Join_Leave_commute d r1 a r2 b :
  Join (Join d r1 a) r2 b = Join (Join d r2 b) r1 a ∧
  (a ≠ b →
   Leave (Join d r1 a) r2 b = Join (Leave d r2 b) r1 a ∧
   Leave (Leave d r1 a) r2 b = Leave (Leave d r2 b) r1 a).
Proof.
  split; [|intros Hab; split].
  - apply map_eq. intros k.
    destruct (decide (r1 = r2)) as [<-|Hr].
    + destruct (decide (r1 = k)) as [<-|Hk].
      * rewrite !Join_lookup, !members_Join. f_equal. membership.
      * by rewrite !members_Join_ne.
    + destruct (decide (r1 = k)) as [<-|Hk1]; [|destruct (decide (r2 = k)) as [<-|Hk2]].
      * rewrite Join_lookup, (members_Join_ne _ r2 r1) by done.
        by rewrite Join_lookup, members_Join_other.
      * rewrite Join_lookup, (members_Join_ne _ r1 r2) by done.
        by rewrite Join_lookup, members_Join_other.
      * by rewrite !members_Join_ne.
  - apply map_eq. intros k.
    destruct (decide (r1 = r2)) as [<-|Hr].
    + destruct (decide (r1 = k)) as [<-|Hk].
      * rewrite Leave_lookup, !Join_lookup, members_Leave. simpl.
        f_equal. membership.
      * by rewrite Leave_lookup_ne, !members_Join_ne, Leave_lookup_ne.
    + destruct (decide (r1 = k)) as [<-|Hk1]; [|destruct (decide (r2 = k)) as [<-|Hk2]].
      * rewrite Leave_lookup_ne, !Join_lookup by done.
        by rewrite members_Leave_other.
      * rewrite Leave_lookup, !members_Join_ne by done.
        by rewrite Leave_lookup.
      * by rewrite Leave_lookup_ne, !members_Join_ne, Leave_lookup_ne.
  - apply map_eq. intros k.
    destruct (decide (r1 = r2)) as [<-|Hr].
    + destruct (decide (r1 = k)) as [<-|Hk].
      * rewrite !Leave_lookup. destruct (d !! r1); simpl; [|done].
        f_equal. membership.
      * by rewrite !Leave_lookup_ne.
    + destruct (decide (r1 = k)) as [<-|Hk1]; [|destruct (decide (r2 = k)) as [<-|Hk2]].
      * by rewrite Leave_lookup_ne, !Leave_lookup, Leave_lookup_ne.
      * by rewrite Leave_lookup, Leave_lookup_ne, Leave_lookup_ne, Leave_lookup.
      * by rewrite !Leave_lookup_ne.
Qed.

Lemma Join_Leave_commute_witness :
  1 ≠ 2 ∧
  Leave (Join ∅ "r1" 1) "r1" 2 = Join (Leave ∅ "r1" 2) "r1" 1.
Proof.
  assert (Hne : 1 ≠ 2) by discriminate.
  split; [exact Hne|].
  exact (proj1 (proj2 (Join_Leave_commute ∅ "r1" 1 "r1" 2) Hne)).
Defined.

End RegistryAlgebra.

(** ** The sends of a fan-out *)

(** A fan-out into a room calls the sockets of that room and no others, at
    most as many as the room has members, and exactly as many when the sends
    raise nothing but errors: sockets of other rooms never see the
    message. *)
Theorem Broadcast_stays_in_its_room net room ws msg w :
  (∀ ev, ev ∈ Broadcast_events net room ws msg w →
         target ev ∈ members (rooms w) room) ∧
  (length (Broadcast_events net room ws msg w)
   ≤ size (members (rooms w) room))%nat ∧
  (raises_errors_only net →
   length (Broadcast_events net room ws msg w) = size (members (rooms w) room)).
Proof.
  assert (Hlen : length (loop_events net msg (snapshot room w) (wire w))
                 = size (members (rooms w) room)).
  { rewrite <- (length_fmap target), loop_events_target. done. }
  split; [|split].
  - intros ev. apply Broadcast_events_member.
  - rewrite <- Hlen. apply prefix_length, Broadcast_new_events.
  - intros Herr. by rewrite Broadcast_events_complete.
Qed.

Lemma Broadcast_stays_in_its_room_witness :
  raises_errors_only (broken 2) ∧
  length (Broadcast_events (broken 2) "r2" 1 "x" trio_r2)
  = size (members (rooms trio_r2) "r2").
Proof.
  split; [apply broken_errors_only|].
  exact (proj2 (proj2 (Broadcast_stays_in_its_room (broken 2) "r2" 1 "x" trio_r2))
           (broken_errors_only 2)).
Defined.

(** A loop that an exception leaves stopped at the send that raised it. *)
Lemma for_each_relay_raised net msg l w e :
  (for_each l (relay net msg) w).2 = Raise e →
  isinstance_Exception e = false ∧
  ∃ evs c,
    wire (for_each l (relay net msg) w).1
      = wire w ++ evs ++ [SendRaised c msg e] ∧
    ((target <$> evs) ++ [c]) `prefix_of` l.
Proof.
  revert w. induction l as [|c l IH]; intros w; [done|].
  rewrite for_each_cons.
  pose proof (relay_world net msg c w) as Hw.
  pose proof (relay_result net msg c w) as Hr.
  destruct (relay net msg c w) as [w1 r]; simpl in Hw, Hr; subst w1.
  unfold outcome_event in *.
  destruct (net (wire w) c msg) as [e'|] eqn:Hnet.
  - destruct (isinstance_Exception e') eqn:Hcls; subst r.
    + intros Hraise. destruct (IH _ Hraise) as (Hexc & evs & c' & Hwire & Hpre).
      split; [done|]. exists (SendRaised c msg e' :: evs), c'.
      split; [rewrite Hwire; simpl; by rewrite <- app_assoc|].
      simpl. by apply prefix_cons.
    + simpl. intros [= <-]. split; [done|]. exists [], c.
      split; [done|]. simpl. apply prefix_cons, prefix_nil.
  - subst r. intros Hraise.
    destruct (IH _ Hraise) as (Hexc & evs & c' & Hwire & Hpre).
    split; [done|]. exists (Delivered c msg :: evs), c'.
    split; [rewrite Hwire; simpl; by rewrite <- app_assoc|].
    simpl. by apply prefix_cons.
Qed.

(** What leaves the loop of lines 315-319 is never an error: an exception
    that Broadcast raises is not an instance of [Exception], it was raised
    by the last send the loop made, and the loop stopped there, part way
    through its copy of the room. *)
Theorem Broadcast_raises_no_error net room ws msg w e :
  (Broadcast net room ws msg w).2 = Raise e →
  isinstance_Exception e = false ∧
  ∃ evs c,
    Broadcast_events net room ws msg w = evs ++ [SendRaised c msg e] ∧
    ((target <$> evs) ++ [c]) `prefix_of` snapshot room w.
Proof.
  intros Hraise.
  destruct (for_each_relay_raised net msg (snapshot room w) w e Hraise)
    as (Hexc & evs & c & Hwire & Hpre).
  split; [done|]. exists evs, c. split; [|done].
  by apply new_events_wire.
Qed.

Lemma Broadcast_raises_no_error_witness :
  (Broadcast (cancelled_at 2) "r2" 1 "x" trio_r2).2
    = Raise (BaseExceptionOnly "CancelledError") ∧
  isinstance_Exception (BaseExceptionOnly "CancelledError") = false.
Proof.
  assert (Hraise : (Broadcast (cancelled_at 2) "r2" 1 "x" trio_r2).2
                   = Raise (BaseExceptionOnly "CancelledError"))
    by (by vm_compute).
  split; [exact Hraise|].
  exact (proj1 (Broadcast_raises_no_error (cancelled_at 2) "r2" 1 "x" trio_r2
                  _ Hraise)).
Defined.

(** ** The life of a handler *)

Section Lifecycle.

Variable net : Transport.

Implicit Types (w : World) (room msg : string) (ws : WebSocket) (p : pc)
  (s : Server).

(** The three things a step of a handler can be: a step that keeps the
    dictionary and the handler on its side of the loop, the registration,
    or the way out through [finally]. *)
Lemma ws_room_step_cases room ws p sg w :
  (rooms (ws_room_step net room ws p sg w).2 = rooms w ∧
   in_loop (ws_room_step net room ws p sg w).1 = in_loop p) ∨
  (p = AtAccept ∧ (ws_room_step net room ws p sg w).1 = AtReceive ∧
   rooms (ws_room_step net room ws p sg w).2 = Join (rooms w) room ws) ∨
  (in_loop p = true ∧ in_loop (ws_room_step net room ws p sg w).1 = false ∧
   rooms (ws_room_step net room ws p sg w).2 = Leave (rooms w) room ws).
Proof.
  destruct p as [| |msg c rest|r], sg; simpl; auto.
  - left. split; [done|]. by destruct (snapshot room w).
  - right; right. by rewrite unwind_world, unwind_pc.
  - pose proof (relay_world net msg c w) as Hw.
    destruct (relay net msg c w) as [w1 [[]|e]]; simpl in Hw; subst w1.
    + left. split; [done|]. by destruct rest.
    + right; right. by rewrite unwind_world, unwind_pc.
Qed.

Lemma live_insert w' (t : gmap WebSocket (string * pc)) ws' room' p' ws room :
  live (mkServer w' (<[ws' := (room', p')]> t)) ws room ↔
  (ws = ws' ∧ room = room' ∧ in_loop p' = true) ∨
  (ws ≠ ws' ∧ ∃ p, t !! ws = Some (room, p) ∧ in_loop p = true).
Proof.
  unfold live. simpl. destruct (decide (ws = ws')) as [->|Hne].
  - rewrite lookup_insert_eq. split.
    + intros (p & [= <- <-] & Hp). by left.
    + intros [(_ & -> & Hp)|[Hne _]]; [eauto | done].
  - rewrite lookup_insert_ne by done. split.
    + intros H. by right.
    + intros [(Heq & _)|[_ H]]; [done | exact H].
Qed.

(** The members of the rooms are the handlers that are inside their loop. *)
Lemma server_step_live s lb :
  (∀ ws room, ws ∈ members (rooms (world s)) room ↔ live s ws room) →
  ∀ ws room,
    ws ∈ members (rooms (world (server_step net s lb))) room ↔
    live (server_step net s lb) ws room.
Proof.
  intros HI ws room. destruct lb as [ws' room'|ws' sg]; simpl.
  - destruct (tasks s !! ws') as [t|] eqn:E; [apply HI|].
    rewrite live_insert. simpl. rewrite HI. unfold live. split.
    + intros (p & Ht & Hp). right. split; [|eauto]. intros ->. congruence.
    + intros [(_ & _ & Hf)|[_ H]]; [done | exact H].
  - destruct (tasks s !! ws') as [[room' p']|] eqn:E; [|apply HI].
    pose proof (ws_room_step_cases room' ws' p' sg (world s)) as Hcases.
    destruct (ws_room_step net room' ws' p' sg (world s)) as [p'' w'].
    simpl in *. rewrite live_insert.
    assert (Hold : ∀ r, ws' ∈ members (rooms (world s)) r ↔
                        r = room' ∧ in_loop p' = true).
    { intros r. rewrite HI. unfold live. rewrite E. split.
      - by intros (p & [= <- <-] & Hp).
      - intros [-> Hp]. eauto. }
    destruct Hcases as [[Hr Hp]|[(-> & -> & Hr)|(Hp' & Hp'' & Hr)]]; rewrite Hr.
    + destruct (decide (ws = ws')) as [->|Hne].
      * rewrite Hold, Hp. split; [intros [-> H]; by left|].
        intros [(_ & -> & H)|[Hne _]]; [done | done].
      * rewrite HI. unfold live. split; [intros H; by right|].
        intros [(Heq & _)|[_ H]]; [done | exact H].
    + rewrite elem_of_members_Join.
      destruct (decide (ws = ws')) as [->|Hne].
      * rewrite Hold. simpl. split.
        -- intros [[_ Hf]|[_ ->]]; [done | by left].
        -- intros [(_ & -> & _)|[Hne _]]; [by right | done].
      * rewrite HI. unfold live. split.
        -- intros [H|[Heq _]]; [by right | done].
        -- intros [(Heq & _)|[_ H]]; [done | by left].
    + rewrite elem_of_members_Leave.
      destruct (decide (ws = ws')) as [->|Hne].
      * rewrite Hold, Hp''. split.
        -- intros [[-> _] Hn]. destruct Hn. done.
        -- intros [(_ & _ & Hf)|[Hne _]]; done.
      * rewrite HI. unfold live. split.
        -- intros [H _]. by right.
        -- intros [(Heq & _)|[_ H]]; [done|]. split; [done|].
           intros [Heq _]. done.
Qed.

Lemma run_live lbs s :
  (∀ ws room, ws ∈ members (rooms (world s)) room ↔ live s ws room) →
  ∀ ws room,
    ws ∈ members (rooms (world (run net lbs s))) room ↔
    live (run net lbs s) ws room.
Proof.
  revert s. induction lbs as [|lb lbs IH]; intros s HI; [exact HI|].
  simpl. apply IH. by apply server_step_live.
Qed.

Lemma boot_live ws room :
  ws ∈ members (rooms (world boot)) room ↔ live boot ws room.
Proof.
  unfold live, members. simpl. rewrite !lookup_empty. simpl. split.
  - intros H. by apply not_elem_of_empty in H.
  - by intros (p & Hp & _).
Qed.

End Lifecycle.

Lemma members_live_of_reachable net s ws room :
  reachable net s →
  ws ∈ members (rooms (world s)) room → live s ws room.
Proof.
  intros [lbs <-] Hin. by apply (run_live net lbs boot boot_live).
Qed.

(** In every state the server reaches, however its handlers interleave, a
    socket is in the set of a room exactly when its handler serves that
    room and is inside its loop, past line 311 and before line 323. *)
Theorem members_are_the_live_handlers net s ws room :
  reachable net s →
  (ws ∈ members (rooms (world s)) room ↔ live s ws room).
Proof.
  intros [lbs <-]. apply run_live. apply boot_live.
Qed.

Lemma members_are_the_live_handlers_witness :
  reachable always_up
    (run always_up [Connect 1 "r"; Wake 1 Accepted] boot) ∧
  (1 ∈ members
         (rooms (world (run always_up [Connect 1 "r"; Wake 1 Accepted] boot)))
         "r" ↔
   live (run always_up [Connect 1 "r"; Wake 1 Accepted] boot) 1 "r").
Proof.
  assert (Hreach : reachable always_up
            (run always_up [Connect 1 "r"; Wake 1 Accepted] boot))
    by (by eexists).
  split; [exact Hreach|].
  exact (members_are_the_live_handlers always_up _ 1 "r" Hreach).
Defined.

(** No socket is left behind and none is in two rooms: in every state the
    server reaches, a socket whose handler has ended, or has not yet been
    accepted, is in the set of no room, and a socket is in the set of at
    most one room, the room of its URL. *)
Theorem no_stale_socket net s ws room p :
  reachable net s →
  tasks s !! ws = Some (room, p) →
  (in_loop p = false → ∀ room', ws ∉ members (rooms (world s)) room') ∧
  (∀ room', ws ∈ members (rooms (world s)) room' → room' = room).
Proof.
  intros Hs Ht. split.
  - intros Hp room' Hin.
    apply (members_live_of_reachable net s ws room' Hs) in Hin
      as (p' & Ht' & Hp').
    congruence.
  - intros room' Hin.
    apply (members_live_of_reachable net s ws room' Hs) in Hin
      as (p' & Ht' & Hp').
    congruence.
Qed.

Lemma no_stale_socket_witness :
  reachable always_up
    (run always_up
       [Connect 1 "r"; Wake 1 Accepted;
        Wake 1 (ReceiveRaised WebSocketDisconnect)] boot) ∧
  ∀ room', 1 ∉ members
                 (rooms (world (run always_up
                    [Connect 1 "r"; Wake 1 Accepted;
                     Wake 1 (ReceiveRaised WebSocketDisconnect)] boot))) room'.
Proof.
  assert (Hreach : reachable always_up
            (run always_up
               [Connect 1 "r"; Wake 1 Accepted;
                Wake 1 (ReceiveRaised WebSocketDisconnect)] boot))
    by (by eexists).
  split; [exact Hreach|].
  refine (proj1 (no_stale_socket always_up _ 1 "r" (Done (Return tt))
                   Hreach _) _); by vm_compute.
Defined.

Lemma disconnect_is_an_error e :
  isinstance_WebSocketDisconnect e = true → isinstance_Exception e = true.
Proof. by destruct e. Qed.

(** The handler leaves its loop only through [finally], which unregisters
    it, and only in two ways: [receive_text] raised, and then the handler
    ends normally if that was the disconnect of its peer and with the
    exception otherwise; or a send raised something that is not an
    [Exception], which the handler raises in turn. An error of a send to
    another client never ends the handler of the sender. *)
Theorem ways_out_of_the_loop net room ws p sg w r :
  in_loop p = true →
  (ws_room_step net room ws p sg w).1 = Done r →
  rooms (ws_room_step net room ws p sg w).2 = Leave (rooms w) room ws ∧
  ((∃ e, p = AtReceive ∧ sg = ReceiveRaised e ∧
         r = if isinstance_WebSocketDisconnect e then Return tt else Raise e) ∨
   (∃ msg c rest e,
       p = AtSend msg c rest ∧ sg = SendAnswered ∧
       net (wire w) c msg = Some e ∧ isinstance_Exception e = false ∧
       r = Raise e)).
Proof.
  intros Hp.
  destruct p as [| |msg c rest|r0], sg; try done; simpl.
  - by destruct (snapshot room w).
  - rewrite unwind_pc, unwind_world. intros [= <-].
    split; [done|]. left. eauto.
  - pose proof (relay_world net msg c w) as Hw.
    pose proof (relay_result net msg c w) as Hr.
    destruct (relay net msg c w) as [w1 [[]|e]]; simpl in Hw, Hr; subst w1.
    + by destruct rest.
    + rewrite unwind_pc, unwind_world. simpl. intros [= <-].
      split; [done|]. right.
      destruct (net (wire w) c msg) as [e'|] eqn:Hnet; [|done].
      destruct (isinstance_Exception e') eqn:Hcls; [done|].
      assert (e' = e) as -> by congruence.
      exists msg, c, rest, e.
      destruct (isinstance_WebSocketDisconnect e) eqn:Hd; [|done].
      apply disconnect_is_an_error in Hd. congruence.
Qed.

Lemma ways_out_of_the_loop_witness :
  in_loop AtReceive = true ∧
  (ws_room_step always_up "r1" 1 AtReceive
     (ReceiveRaised WebSocketDisconnect) pair_r1).1 = Done (Return tt) ∧
  rooms (ws_room_step always_up "r1" 1 AtReceive
           (ReceiveRaised WebSocketDisconnect) pair_r1).2
  = Leave (rooms pair_r1) "r1" 1.
Proof.
  split; [reflexivity|]. split; [reflexivity|].
  exact (proj1 (ways_out_of_the_loop always_up "r1" 1 AtReceive
                  (ReceiveRaised WebSocketDisconnect) pair_r1 (Return tt)
                  eq_refl eq_refl)).
Defined.

(** The steps of the other handlers leave the task of a handler alone. *)
Lemma server_step_skip net s ws lb :
  socket_of lb ≠ ws →
  tasks (server_step net s lb) !! ws = tasks s !! ws.
Proof.
  intros Hlb. destruct lb as [ws' room'|ws' sg]; simpl in Hlb.
  - simpl. destruct (tasks s !! ws'); [done|].
    simpl. by rewrite lookup_insert_ne.
  - by apply server_step_other_task.
Qed.

Lemma server_step_Wake net s ws room p sg :
  tasks s !! ws = Some (room, p) →
  server_step net s (Wake ws sg)
  = mkServer (ws_room_step net room ws p sg (world s)).2
      (<[ws := (room, (ws_room_step net room ws p sg (world s)).1)]> (tasks s)).
Proof.
  intros Ht. simpl. rewrite Ht.
  by destruct (ws_room_step net room ws p sg (world s)).
Qed.

Lemma run_app net l1 l2 s :
  run net (l1 ++ l2) s = run net l2 (run net l1 s).
Proof. unfold run. apply fold_left_app. Qed.

Lemma sends_by_app net ws l1 l2 s :
  sends_by net ws (l1 ++ l2) s
  = sends_by net ws l1 s ++ sends_by net ws l2 (run net l1 s).
Proof.
  revert s. induction l1 as [|lb l1 IH]; intros s; [done|].
  simpl. by rewrite IH, app_assoc.
Qed.

Lemma new_events_same w : new_events w w = [].
Proof. unfold new_events. by rewrite drop_all. Qed.

(** A handler in the middle of a fan-out, with [l] the sockets of its copy
    it has not called yet: in a stretch of the run in which it is resumed
    [k] times from a send, among any steps of the other handlers, it calls
    the first [k] sockets of [l], with its message, and is then suspended
    at the next. *)
Lemma sends_by_fan_out net ws room msg lbs :
  raises_errors_only net →
  ∀ s l,
    tasks s !! ws = Some (room, next_client msg l) →
    only_sends ws lbs →
    target <$> sends_by net ws lbs s = take (turns ws lbs) l ∧
    Forall (λ ev, payload_of ev = msg) (sends_by net ws lbs s) ∧
    tasks (run net lbs s) !! ws
    = Some (room, next_client msg (drop (turns ws lbs) l)).
Proof.
  intros Herr. unfold only_sends, turns.
  induction lbs as [|lb lbs IH]; intros s l Ht Hall.
  - simpl. rewrite take_0, drop_0. by repeat split.
  - apply Forall_cons in Hall as [Hlb Hall].
    cbn [sends_by run fold_left]. fold (run net lbs (server_step net s lb)).
    rewrite filter_cons.
    destruct (decide (socket_of lb = ws)) as [Hws|Hws].
    + rewrite (Hlb Hws). cbn [length].
      rewrite (server_step_Wake net s ws room _ SendAnswered Ht).
      destruct l as [|c rest].
      * change (next_client msg []) with AtReceive. cbn [ws_room_step fst snd].
        cbn [world]. rewrite new_events_same.
        destruct (IH (mkServer (world s)
                        (<[ws := (room, AtReceive)]> (tasks s))) [])
          as (Htargets & Hpay & Htask); [by simpl; rewrite lookup_insert_eq | done |].
        rewrite take_nil in *. rewrite drop_nil in *. by repeat split.
      * change (next_client msg (c :: rest)) with (AtSend msg c rest).
        rewrite ws_room_step_AtSend.
        pose proof (relay_world net msg c (world s)) as Hw.
        pose proof (relay_returns net msg c (world s) Herr) as Hr.
        destruct (relay net msg c (world s)) as [w1 r]; simpl in Hw, Hr.
        subst w1 r. cbn [fst snd world].
        rewrite new_events_app.
        destruct (IH (mkServer
                        (mkWorld (rooms (world s))
                           (wire (world s)
                            ++ [outcome_event net (wire (world s)) c msg]))
                        (<[ws := (room, next_client msg rest)]> (tasks s)))
                    rest)
          as (Htargets & Hpay & Htask); [by simpl; rewrite lookup_insert_eq | done |].
        split; [|split].
        -- cbn [app fmap list_fmap]. rewrite Htargets. cbn [take]. f_equal.
           unfold outcome_event. by destruct (net (wire (world s)) c msg).
        -- cbn [app]. constructor; [|done].
           unfold outcome_event. by destruct (net (wire (world s)) c msg).
        -- done.
    + cbn [app].
      apply IH; [|done]. by rewrite server_step_skip.
Qed.

(** A fan-out runs over the copy of the room taken when the message was
    received. However the handlers of the other sockets interleave with
    it, connecting, joining, leaving, sending or disconnecting between its
    sends, the sockets the handler calls are the sockets of that copy in
    their order, the first k of them after k of its sends, each with the
    message received; and the handler is then suspended at the next socket
    of the copy, or back at [receive_text]. Who joins meanwhile is not
    called, and who leaves meanwhile still is. *)
Theorem fan_out_runs_over_its_copy net s ws room msg lbs :
  raises_errors_only net →
  tasks s !! ws = Some (room, AtReceive) →
  only_sends ws lbs →
  target <$> sends_by net ws (Wake ws (Received msg) :: lbs) s
  = take (turns ws lbs) (snapshot room (world s)) ∧
  Forall (λ ev, payload_of ev = msg)
    (sends_by net ws (Wake ws (Received msg) :: lbs) s) ∧
  tasks (run net (Wake ws (Received msg) :: lbs) s) !! ws
  = Some (room,
          next_client msg (drop (turns ws lbs) (snapshot room (world s)))).
Proof.
  intros Herr Ht Hall.
  cbn [sends_by run fold_left socket_of].
  fold (run net lbs (server_step net s (Wake ws (Received msg)))).
  destruct (decide (ws = ws)) as [_|Hne]; [|done].
  rewrite (server_step_Wake net s ws room AtReceive (Received msg) Ht).
  cbn [ws_room_step fst snd world]. rewrite new_events_same. cbn [app].
  apply (sends_by_fan_out net ws room msg lbs Herr); [|done].
  simpl. by rewrite lookup_insert_eq.
Qed.

(** Socket 1 copies the room, 2 and 1, when it receives hi. Then 2
    disconnects and 3 joins between the sends of 1: socket 1 calls 2 and 1,
    and not 3. *)
Lemma fan_out_runs_over_its_copy_witness :
  raises_errors_only always_up ∧
  tasks both_waiting !! 1 = Some ("r", AtReceive) ∧
  only_sends 1 busy_stretch ∧
  target <$> sends_by always_up 1 (Wake 1 (Received "hi") :: busy_stretch)
               both_waiting
  = take (turns 1 busy_stretch) (snapshot "r" (world both_waiting)) ∧
  take (turns 1 busy_stretch) (snapshot "r" (world both_waiting)) = [2; 1].
Proof.
  assert (Htask : tasks both_waiting !! 1 = Some ("r", AtReceive))
    by (by vm_compute).
  assert (Hall : only_sends 1 busy_stretch).
  { unfold only_sends, busy_stretch.
    repeat constructor; simpl; intros Heq; (done || discriminate Heq). }
  split; [exact always_up_errors_only|]. split; [exact Htask|].
  split; [exact Hall|]. split; [|by vm_compute].
  exact (proj1 (fan_out_runs_over_its_copy always_up both_waiting 1 "r" "hi"
                  busy_stretch always_up_errors_only Htask Hall)).
Defined.

(** Messages are relayed in the order received. When a handler has
    received a message and been through its fan-out, and then receives a
    second one, every call it makes with the first message comes before
    every call it makes with the second, whatever the other handlers do in
    between and meanwhile; the first message goes to the copy of the room
    taken when it was received, the second to the copy taken when the
    second was received. *)
Theorem messages_are_relayed_in_order net s ws room m1 m2 lbs1 lbs2 :
  raises_errors_only net →
  tasks s !! ws = Some (room, AtReceive) →
  only_sends ws lbs1 →
  only_sends ws lbs2 →
  (length (snapshot room (world s)) ≤ turns ws lbs1)%nat →
  ∃ first second,
    sends_by net ws
      ((Wake ws (Received m1) :: lbs1) ++ Wake ws (Received m2) :: lbs2) s
    = first ++ second ∧
    target <$> first = snapshot room (world s) ∧
    Forall (λ ev, payload_of ev = m1) first ∧
    target <$> second
    = take (turns ws lbs2)
        (snapshot room (world (run net (Wake ws (Received m1) :: lbs1) s))) ∧
    Forall (λ ev, payload_of ev = m2) second.
Proof.
  intros Herr Ht Hall1 Hall2 Hturns.
  rewrite sends_by_app.
  exists (sends_by net ws (Wake ws (Received m1) :: lbs1) s),
         (sends_by net ws (Wake ws (Received m2) :: lbs2)
            (run net (Wake ws (Received m1) :: lbs1) s)).
  split; [done|].
  assert (Hfirst :
    target <$> sends_by net ws (Wake ws (Received m1) :: lbs1) s
    = take (turns ws lbs1) (snapshot room (world s)) ∧
    Forall (λ ev, payload_of ev = m1)
      (sends_by net ws (Wake ws (Received m1) :: lbs1) s) ∧
    tasks (run net (Wake ws (Received m1) :: lbs1) s) !! ws
    = Some (room,
            next_client m1 (drop (turns ws lbs1) (snapshot room (world s))))).
  { cbn [sends_by run fold_left socket_of].
    fold (run net lbs1 (server_step net s (Wake ws (Received m1)))).
    destruct (decide (ws = ws)) as [_|Hne]; [|done].
    rewrite (server_step_Wake net s ws room AtReceive (Received m1) Ht).
    cbn [ws_room_step fst snd world]. rewrite new_events_same. cbn [app].
    apply (sends_by_fan_out net ws room m1 lbs1 Herr); [|done].
    simpl. by rewrite lookup_insert_eq. }
  destruct Hfirst as (Htargets1 & Hpay1 & Htask1).
  rewrite take_ge in Htargets1 by done.
  rewrite drop_ge in Htask1 by done.
  change (next_client m1 []) with AtReceive in Htask1.
  split; [done|]. split; [done|].
  set (s1 := run net (Wake ws (Received m1) :: lbs1) s) in *.
  cbn [sends_by socket_of].
  destruct (decide (ws = ws)) as [_|Hne]; [|done].
  rewrite (server_step_Wake net s1 ws room AtReceive (Received m2) Htask1).
  cbn [ws_room_step fst snd world]. rewrite new_events_same. cbn [app].
  destruct (sends_by_fan_out net ws room m2 lbs2 Herr
              (mkServer (world s1)
                 (<[ws := (room, next_client m2 (snapshot room (world s1)))]>
                    (tasks s1)))
              (snapshot room (world s1)))
    as (Htargets2 & Hpay2 & _); [by simpl; rewrite lookup_insert_eq | done |].
  by split.
Qed.

(** Socket 1 relays hi to 2 and to itself; 2 disconnects and 3 joins
    meanwhile; then 1 relays yo, to 3 first. *)
Lemma messages_are_relayed_in_order_witness :
  raises_errors_only always_up ∧
  tasks both_waiting !! 1 = Some ("r", AtReceive) ∧
  only_sends 1 busy_stretch ∧
  only_sends 1 [Wake 1 SendAnswered] ∧
  (length (snapshot "r" (world both_waiting)) ≤ turns 1 busy_stretch)%nat ∧
  ∃ first second,
    sends_by always_up 1
      ((Wake 1 (Received "hi") :: busy_stretch)
       ++ Wake 1 (Received "yo") :: [Wake 1 SendAnswered]) both_waiting
    = first ++ second ∧
    target <$> first = snapshot "r" (world both_waiting) ∧
    Forall (λ ev, payload_of ev = "hi") first ∧
    target <$> second
    = take (turns 1 [Wake 1 SendAnswered])
        (snapshot "r"
           (world (run always_up (Wake 1 (Received "hi") :: busy_stretch)
                     both_waiting))) ∧
    Forall (λ ev, payload_of ev = "yo") second.
Proof.
  assert (Htask : tasks both_waiting !! 1 = Some ("r", AtReceive))
    by (by vm_compute).
  assert (Hall1 : only_sends 1 busy_stretch).
  { unfold only_sends, busy_stretch.
    repeat constructor; simpl; intros Heq; (done || discriminate Heq). }
  assert (Hall2 : only_sends 1 [Wake 1 SendAnswered]).
  { unfold only_sends. by repeat constructor. }
  assert (Hturns : (length (snapshot "r" (world both_waiting))
                    ≤ turns 1 busy_stretch)%nat) by (vm_compute; lia).
  split; [exact always_up_errors_only|]. split; [exact Htask|].
  split; [exact Hall1|]. split; [exact Hall2|]. split; [exact Hturns|].
  exact (messages_are_relayed_in_order always_up both_waiting 1 "r" "hi" "yo"
           busy_stretch [Wake 1 SendAnswered]
           always_up_errors_only Htask Hall1 Hall2 Hturns).
Defined.

(** * Properties of the accounts *)

(** ** The bearer header *)

Section Bearer.

Implicit Types (s scheme rest auth : string) (c : ascii).

Lemma py_lower_app s1 s2 :
  py_lower (s1 ++ s2)%string = (py_lower s1 ++ py_lower s2)%string.
Proof. induction s1 as [|c s1 IH]; simpl; [done | by rewrite IH]. Qed.

(** Lowering turns nothing into a space and leaves a space alone. *)
Lemma lower_char_space c : lower_char c = " "%char ↔ c = " "%char.
Proof.
  split; [|by intros ->].
  destruct c as [[] [] [] [] [] [] [] []]; vm_compute; congruence.
Qed.

Lemma partition_space_cons c s :
  c ≠ " "%char →
  partition_space (String c s) =
  match partition_space s with
  | Some (before, after) => Some (String c before, after)
  | None => None
  end.
Proof.
  intros Hc. simpl. destruct (Ascii.eqb_spec c " "%char); [done | done].
Qed.

(** A scheme that lowers to a word without a space holds no space: the
    first space of the header is the one behind it. *)
Lemma partition_space_scheme scheme rest :
  partition_space (py_lower scheme) = None →
  partition_space (scheme ++ String " " rest)%string = Some (scheme, rest).
Proof.
  induction scheme as [|c scheme IH]; [done|].
  change (String c scheme ++ String " " rest)%string
    with (String c (scheme ++ String " " rest)%string).
  change (py_lower (String c scheme))
    with (String (lower_char c) (py_lower scheme)).
  intros Hno.
  assert (Hc : c ≠ " "%char).
  { intros ->. by vm_compute in Hno. }
  assert (Hlc : lower_char c ≠ " "%char).
  { intros Heq. apply (proj1 (lower_char_space c)) in Heq. congruence. }
  rewrite partition_space_cons in Hno by done.
  rewrite partition_space_cons by done.
  destruct (partition_space (py_lower scheme)) as [[? ?]|]; [done|].
  by rewrite IH.
Qed.

Lemma prefix_app (p s : string) :
  String.prefix p s = true ↔ ∃ rest, s = (p ++ rest)%string.
Proof.
  revert s. induction p as [|a p IH]; intros s.
  - split; [intros _; by exists s | intros _; by destruct s].
  - destruct s as [|b s]; cbn [String.prefix].
    + split; [done | by intros [rest Hrest]].
    + destruct (ascii_dec a b) as [<-|Hne].
      * rewrite IH. split; intros [rest Hrest]; exists rest.
        -- by rewrite Hrest.
        -- by injection Hrest.
      * split; [done|]. intros [rest [= Heq _]]. congruence.
Qed.

Lemma py_lower_cons_inv s a t :
  py_lower s = String a t →
  ∃ c s', s = String c s' ∧ lower_char c = a ∧ py_lower s' = t.
Proof. destruct s as [|c s']; [done|]. intros [= <- <-]. eauto. Qed.

Lemma prefix_bearer auth :
  String.prefix "bearer " (py_lower auth) = true ↔
  ∃ scheme rest,
    auth = (scheme ++ String " " rest)%string ∧ py_lower scheme = "bearer".
Proof.
  rewrite prefix_app. split.
  - intros [rest' H0].
    apply py_lower_cons_inv in H0 as (c1 & s1 & -> & H1 & H0).
    apply py_lower_cons_inv in H0 as (c2 & s2 & -> & H2 & H0).
    apply py_lower_cons_inv in H0 as (c3 & s3 & -> & H3 & H0).
    apply py_lower_cons_inv in H0 as (c4 & s4 & -> & H4 & H0).
    apply py_lower_cons_inv in H0 as (c5 & s5 & -> & H5 & H0).
    apply py_lower_cons_inv in H0 as (c6 & s6 & -> & H6 & H0).
    apply py_lower_cons_inv in H0 as (c7 & rest & -> & H7 & _).
    apply (proj1 (lower_char_space c7)) in H7. subst c7.
    exists (String c1 (String c2 (String c3 (String c4 (String c5
              (String c6 EmptyString)))))), rest.
    split; [done|]. simpl. by rewrite H1, H2, H3, H4, H5, H6.
  - intros (scheme & rest & -> & Hlow).
    exists (py_lower rest). rewrite py_lower_app, Hlow. done.
Qed.

Lemma bearer_token_of_scheme scheme rest :
  py_lower scheme = "bearer" →
  bearer_token (Some (scheme ++ String " " rest)%string) = Ok (py_strip rest).
Proof.
  intros Hlow. unfold bearer_token. simpl.
  assert (Hpre : String.prefix "bearer "
                   (py_lower (scheme ++ String " " rest)%string) = true).
  { apply prefix_bearer. eauto. }
  rewrite Hpre. simpl. unfold py_split_space_1.
  rewrite partition_space_scheme; [done|]. by rewrite Hlow.
Qed.

End Bearer.

(** The token of the bearer header. Any header whose first word is bearer,
    in any case, followed by a space is accepted and its token is the rest
    of the header without the white space around it; every other header,
    and a missing one, is refused with the 401 missing_bearer; and the
    index into the split header on line 105 is never out of range. *)
Theorem bearer_token_is_the_rest authorization :
  (∀ cls, bearer_token authorization ≠ Uncaught cls) ∧
  (∀ sc d, bearer_token authorization = HTTPException sc d →
           sc = 401 ∧ d = "missing_bearer") ∧
  (∀ token,
     bearer_token authorization = Ok token ↔
     ∃ scheme rest,
       authorization = Some (scheme ++ String " " rest)%string ∧
       py_lower scheme = "bearer" ∧ token = py_strip rest).
Proof.
  assert (Hcases :
    (bearer_token authorization = HTTPException 401 "missing_bearer" ∧
     String.prefix "bearer " (py_lower (default "" authorization)) = false) ∨
    (∃ scheme rest,
       authorization = Some (scheme ++ String " " rest)%string ∧
       py_lower scheme = "bearer" ∧
       bearer_token authorization = Ok (py_strip rest))).
  { destruct (String.prefix "bearer " (py_lower (default "" authorization)))
      eqn:Hpre.
    - right. apply prefix_bearer in Hpre as (scheme & rest & Hauth & Hlow).
      exists scheme, rest.
      destruct authorization as [auth|]; simpl in Hauth.
      + subst auth. split; [done|]. split; [done|].
        by apply bearer_token_of_scheme.
      + by destruct scheme.
    - left. unfold bearer_token. by rewrite Hpre. }
  split; [|split].
  - intros cls. destruct Hcases as [[-> _]|(? & ? & _ & _ & ->)]; done.
  - intros sc d. destruct Hcases as [[-> _]|(? & ? & _ & _ & ->)]; [|done].
    by intros [= <- <-].
  - intros token. split.
    + destruct Hcases as [[-> _]|(scheme & rest & Hauth & Hlow & ->)]; [done|].
      intros [= <-]. eauto.
    + intros (scheme & rest & -> & Hlow & ->).
      by apply bearer_token_of_scheme.
Qed.

(** A header in capitals with blanks around the token. *)
Lemma bearer_token_is_the_rest_witness :
  bearer_token (Some "BEARER  abc.def ") = Ok "abc.def".
Proof.
  apply (proj2 (proj2 (proj2 (bearer_token_is_the_rest
                                (Some "BEARER  abc.def "))) "abc.def")).
  by exists "BEARER", " abc.def ".
Defined.

(** ** Sessions *)

Section SessionProps.

Variable claims : Type.
Variable jwt_decode : string → decoded claims.
Variable claims_empty : claims → bool.
Variable claims_sub : claims → outcome Z.

Lemma get_user_by_id_Some db uid row :
  get_user_by_id db uid = Ok (Some row) → row ∈ users db ∧ user_id row = uid.
Proof.
  unfold get_user_by_id, select_by_id.
  destruct ((min_rowid <=? uid) && (uid <=? max_rowid))%Z; [|done].
  intros [= Hfind].
  apply find_some in Hfind as [Hin Hid].
  split; [by apply list_elem_of_In | by apply bool_decide_eq_true in Hid].
Qed.

(** The session of the browser, unfolded on its one way to a user. *)
Lemma current_user_web_Some lp_token db row :
  current_user_web claims jwt_decode claims_empty claims_sub lp_token db
    = Ok (Some row) →
  ∃ token data,
    lp_token = Some token ∧ jwt_decode token = Decoded data ∧
    claims_empty data = false ∧
    ∃ uid, claims_sub data = Ok uid ∧ get_user_by_id db uid = Ok (Some row).
Proof.
  unfold current_user_web, read_jwt.
  destruct lp_token as [[|c token]|]; [done| |done].
  destruct (jwt_decode (String c token)) as [data| |cls] eqn:Hdec; [|done..].
  destruct (claims_empty data) eqn:Hempty; [done|].
  destruct (claims_sub data) as [uid| |] eqn:Hsub; [|done..].
  intros Hrow. exists (String c token), data. eauto 10.
Qed.

End SessionProps.

(** Whoever passes [require_user_api] presented a bearer token that decodes
    to claims which are not empty and whose subject is the id of the row
    returned, a row of the table. *)
Theorem require_user_api_is_sound claims jwt_decode claims_empty claims_sub
    authorization db row :
  require_user_api claims jwt_decode claims_empty claims_sub authorization db
    = Ok row →
  row ∈ users db ∧
  ∃ token data,
    bearer_token authorization = Ok token ∧
    jwt_decode token = Decoded data ∧
    claims_empty data = false ∧
    claims_sub data = Ok (user_id row).
Proof.
  unfold require_user_api, read_jwt.
  destruct (bearer_token authorization) as [token| |] eqn:Hb; [|done..].
  destruct (jwt_decode token) as [data| |cls] eqn:Hdec; [|done..].
  destruct (claims_empty data) eqn:Hempty; [done|].
  destruct (claims_sub data) as [uid| |] eqn:Hsub; [|done..].
  destruct (get_user_by_id db uid) as [[row'|]| |] eqn:Hget; [|done..].
  intros [= ->].
  apply get_user_by_id_Some in Hget as [Hin <-].
  split; [done|]. exists token, data. eauto.
Qed.

Lemma require_user_api_is_sound_witness :
  require_user_api Z toy_decode (λ _, false) Ok (Some "Bearer 1")
    (mkDatabase [mkUser 1 alice "hash" 10 None None] 1)
    = Ok (mkUser 1 alice "hash" 10 None None) ∧
  mkUser 1 alice "hash" 10 None None
    ∈ users (mkDatabase [mkUser 1 alice "hash" 10 None None] 1).
Proof.
  assert (Hok : require_user_api Z toy_decode (λ _, false) Ok (Some "Bearer 1")
                  (mkDatabase [mkUser 1 alice "hash" 10 None None] 1)
                = Ok (mkUser 1 alice "hash" 10 None None)) by reflexivity.
  split; [exact Hok|].
  exact (proj1 (require_user_api_is_sound Z toy_decode (λ _, false) Ok
                  _ _ _ Hok)).
Defined.

(** The two sessions agree: a token that the cookie check of the web pages
    resolves to a user, and that has no white space at its ends, resolves
    to the same user as a bearer token of the API. *)
Theorem cookie_token_is_a_bearer_token claims jwt_decode claims_empty
    claims_sub token db row scheme :
  current_user_web claims jwt_decode claims_empty claims_sub (Some token) db
    = Ok (Some row) →
  py_strip token = token →
  py_lower scheme = "bearer" →
  require_user_api claims jwt_decode claims_empty claims_sub
    (Some (scheme ++ String " " token)%string) db = Ok row.
Proof.
  intros Hweb Hstrip Hlow.
  apply current_user_web_Some in Hweb
    as (token' & data & [= <-] & Hdec & Hempty & uid & Hsub & Hget).
  unfold require_user_api, read_jwt.
  rewrite (bearer_token_of_scheme scheme token Hlow), Hstrip.
  by rewrite Hdec, Hempty, Hsub, Hget.
Qed.

Lemma cookie_token_is_a_bearer_token_witness :
  current_user_web Z toy_decode (λ _, false) Ok (Some "1")
    (mkDatabase [mkUser 1 alice "hash" 10 None None] 1)
    = Ok (Some (mkUser 1 alice "hash" 10 None None)) ∧
  py_strip "1" = "1" ∧ py_lower "Bearer" = "bearer" ∧
  require_user_api Z toy_decode (λ _, false) Ok (Some "Bearer 1")
    (mkDatabase [mkUser 1 alice "hash" 10 None None] 1)
    = Ok (mkUser 1 alice "hash" 10 None None).
Proof.
  split; [reflexivity|]. split; [reflexivity|]. split; [reflexivity|].
  exact (cookie_token_is_a_bearer_token Z toy_decode (λ _, false) Ok "1"
           (mkDatabase [mkUser 1 alice "hash" 10 None None] 1)
           (mkUser 1 alice "hash" 10 None None) "Bearer"
           eq_refl eq_refl eq_refl).
Defined.

(** ** The users table *)

Section TableProps.

Implicit Types (db : Database) (name : str) (row : user).

Lemma select_by_username_Some db name row :
  select_by_username db name = Some row →
  row ∈ users db ∧ username row = name.
Proof.
  unfold select_by_username. intros Hfind.
  apply find_some in Hfind as [Hin Hname].
  split; [by apply list_elem_of_In | by apply bool_decide_eq_true in Hname].
Qed.

Lemma select_by_username_None db name :
  select_by_username db name = None ↔ name ∉ username <$> users db.
Proof.
  unfold select_by_username. split.
  - intros Hnone Hin. apply list_elem_of_fmap in Hin as (row & -> & Hrow).
    apply list_elem_of_In in Hrow.
    pose proof (find_none _ _ Hnone row Hrow) as Hf. simpl in Hf.
    by apply bool_decide_eq_false in Hf.
  - intros Hnot. destruct (find _ _) as [row|] eqn:Hfind; [|done].
    apply find_some in Hfind as [Hin Hname].
    apply bool_decide_eq_true in Hname. destruct Hnot.
    apply list_elem_of_fmap. exists row. split; [done|].
    by apply list_elem_of_In.
Qed.

(** The row appended last is found under its name if no older row has
    it. *)
Lemma select_by_username_app db name row seq :
  select_by_username db name = None →
  username row = name →
  select_by_username (mkDatabase (users db ++ [row]) seq) name = Some row.
Proof.
  unfold select_by_username. simpl. intros Hnone Hname.
  induction (users db) as [|r l IH]; simpl in *.
  - by rewrite bool_decide_true.
  - destruct (bool_decide (username r = name)); [done | by apply IH].
Qed.

(** The lookup answers when the name can be encoded, and then with the row
    selected. *)
Lemma get_user_by_username_Ok db name found :
  get_user_by_username db name = Ok found ↔
  encodable name = true ∧ found = select_by_username db name.
Proof.
  unfold get_user_by_username. destruct (encodable name); split.
  - by intros [= <-].
  - by intros [_ ->].
  - done.
  - by intros [? _].
Qed.

Lemma get_user_by_username_encodable db name :
  encodable name = true →
  get_user_by_username db name = Ok (select_by_username db name).
Proof. intros Henc. by apply get_user_by_username_Ok. Qed.

Lemma foldr_max_le (l : list Z) (seq x : Z) :
  x ∈ l → (x ≤ foldr Z.max seq l)%Z.
Proof.
  induction l as [|y l IH]; [by intros ?%elem_of_nil|].
  intros [->|Hin]%elem_of_cons; simpl; [lia|].
  specialize (IH Hin). lia.
Qed.

Lemma foldr_max_seq (l : list Z) (seq : Z) : (seq ≤ foldr Z.max seq l)%Z.
Proof. induction l as [|y l IH]; simpl; lia. Qed.

(** The id SQLite picks is new, and larger than its counter. *)
Lemma next_rowid_fresh db :
  (next_rowid db ∉ user_id <$> users db) ∧
  (sqlite_sequence db < next_rowid db)%Z.
Proof.
  unfold next_rowid. split.
  - intros Hin. apply (foldr_max_le _ (sqlite_sequence db)) in Hin. lia.
  - pose proof (foldr_max_seq (user_id <$> users db) (sqlite_sequence db)). lia.
Qed.

Lemma insert_user_Ok db name ph now db' :
  insert_user db name ph now = Ok db' ↔
  encodable name = true ∧ (next_rowid db ≤ max_rowid)%Z ∧
  select_by_username db name = None ∧
  db' = mkDatabase
          (users db ++ [mkUser (next_rowid db) name ph now None None])
          (next_rowid db).
Proof.
  unfold insert_user. destruct (encodable name); simpl.
  - destruct (Z.ltb_spec max_rowid (next_rowid db)) as [Hfull|Hroom].
    + split; [done|]. intros (_ & ? & _). lia.
    + destruct (select_by_username db name) as [row|]; split.
      * done.
      * by intros (_ & _ & ? & _).
      * intros [= <-]. done.
      * by intros (_ & _ & _ & ->).
  - split; [done|]. by intros [? _].
Qed.

Lemma table_ok_insert db name ph now :
  table_ok db → select_by_username db name = None →
  table_ok (mkDatabase
              (users db ++ [mkUser (next_rowid db) name ph now None None])
              (next_rowid db)).
Proof.
  intros [Hnames Hids] Hnone. unfold table_ok. simpl.
  rewrite !fmap_app. simpl. split; apply NoDup_app.
  - split; [done|]. split; [|apply NoDup_singleton].
    intros x Hx ->%list_elem_of_singleton.
    by apply select_by_username_None in Hnone.
  - split; [done|]. split; [|apply NoDup_singleton].
    intros x Hx ->%list_elem_of_singleton.
    by apply (next_rowid_fresh db).
Qed.

End TableProps.

(** ** Registration and login *)

Section AccountProps.

Variable lib : Library.

Implicit Types (db : Database) (name password : str) (row : user).

(** What storing a user whose name is free comes to: the row is appended
    under the next id and the token is for that id, unless the hash raised
    or the ids are used up, and then the table is as it was. *)
Lemma store_hashed_free answer name hashed t1 t2 db :
  encodable name = true →
  select_by_username db name = None →
  (∃ ph,
     hashed = Ok ph ∧ (next_rowid db ≤ max_rowid)%Z ∧
     store_hashed lib answer name hashed t1 t2 db =
     (mkDatabase
        (users db ++ [mkUser (next_rowid db) name ph t1 None None])
        (next_rowid db),
      Ok (answer (create_jwt lib (next_rowid db) name t2)))) ∨
  ((store_hashed lib answer name hashed t1 t2 db).1 = db ∧
   ((∃ ph, hashed = Ok ph ∧ (max_rowid < next_rowid db)%Z ∧
           (store_hashed lib answer name hashed t1 t2 db).2
           = Uncaught "OperationalError") ∨
    (∃ sc d, hashed = HTTPException sc d ∧
             (store_hashed lib answer name hashed t1 t2 db).2
             = HTTPException sc d) ∨
    (∃ cls, hashed = Uncaught cls ∧
            (store_hashed lib answer name hashed t1 t2 db).2 = Uncaught cls))).
Proof.
  intros Henc Hfree. unfold store_hashed.
  destruct hashed as [ph|sc d|cls].
  - destruct (Z.ltb_spec max_rowid (next_rowid db)) as [Hfull|Hroom].
    + right. unfold insert_user. rewrite Henc. simpl.
      destruct (Z.ltb_spec max_rowid (next_rowid db)); [|lia].
      split; [done|]. left. eauto.
    + left. exists ph.
      assert (Hins : insert_user db name ph t1 =
                Ok (mkDatabase
                      (users db ++ [mkUser (next_rowid db) name ph t1 None None])
                      (next_rowid db))) by (by apply insert_user_Ok).
      rewrite Hins. rewrite get_user_by_username_encodable by done.
      rewrite (select_by_username_app db name
                 (mkUser (next_rowid db) name ph t1 None None)
                 (next_rowid db) Hfree eq_refl).
      done.
  - right. split; [done|]. right; left. eauto.
  - right. split; [done|]. right; right. eauto.
Qed.

(** A stored user keeps the table in order and leaves its rows alone. *)
Lemma store_hashed_keeps answer name hashed t1 t2 db :
  encodable name = true →
  select_by_username db name = None →
  (3 ≤ length name ≤ 32)%nat →
  table_ok db →
  Forall (λ row, (3 ≤ length (username row) ≤ 32)%nat) (users db) →
  table_ok (store_hashed lib answer name hashed t1 t2 db).1 ∧
  users db `prefix_of` users (store_hashed lib answer name hashed t1 t2 db).1 ∧
  Forall (λ row, (3 ≤ length (username row) ≤ 32)%nat)
    (users (store_hashed lib answer name hashed t1 t2 db).1).
Proof.
  intros Henc Hfree Hlen Hok Hall.
  destruct (store_hashed_free answer name hashed t1 t2 db Henc Hfree)
    as [(ph & _ & _ & ->)|[-> _]]; [|done].
  simpl. split; [by apply table_ok_insert|].
  split; [by apply prefix_app_r|].
  apply Forall_app. split; [done|]. by constructor.
Qed.

(** The only exceptions of the storing are those of the hash and the one
    of a table whose ids are used up. *)
Lemma store_hashed_uncaught answer name hashed t1 t2 db cls :
  encodable name = true →
  select_by_username db name = None →
  (store_hashed lib answer name hashed t1 t2 db).2 = Uncaught cls →
  hashed = Uncaught cls ∨
  (cls = "OperationalError" ∧ (max_rowid < next_rowid db)%Z).
Proof.
  intros Henc Hfree.
  destruct (store_hashed_free answer name hashed t1 t2 db Henc Hfree)
    as [(ph & _ & _ & ->)|[_ [(ph & _ & Hfull & ->)|
          [(sc & d & _ & ->)|(cls' & Hhash & ->)]]]]; try done.
  - intros [= <-]. by right.
  - intros [= <-]. by left.
Qed.

(** The name under which a registration stores, and its tests: the form is
    turned down with a page, or the lookup of the name raises, or the user
    is stored. *)
Lemma register_post_cases form_username form_password t1 t2 db :
  ((register_post lib form_username form_password t1 t2 db).1 = db ∧
   ((∃ template error,
       (register_post lib form_username form_password t1 t2 db).2
       = Ok (TemplateResponse template error)) ∨
    ((register_post lib form_username form_password t1 t2 db).2
     = Uncaught "UnicodeEncodeError" ∧
     encodable (str_lower lib (str_strip lib form_username)) = false))) ∨
  ((3 ≤ length (str_lower lib (str_strip lib form_username)) ≤ 32)%nat ∧
   (6 ≤ length form_password)%nat ∧
   encodable (str_lower lib (str_strip lib form_username)) = true ∧
   select_by_username db (str_lower lib (str_strip lib form_username)) = None ∧
   register_post lib form_username form_password t1 t2 db =
   store_hashed lib (RedirectWithToken "/dashboard")
     (str_lower lib (str_strip lib form_username))
     (pwd_hash lib form_password) t1 t2 db).
Proof.
  unfold register_post, get_user_by_username, store_user.
  set (name := str_lower lib (str_strip lib form_username)).
  destruct (Nat.ltb_spec (length name) 3); simpl; [left; eauto|].
  destruct (Nat.ltb_spec 32 (length name)); simpl; [left; eauto|].
  destruct (Nat.ltb_spec (length form_password) 6); simpl; [left; eauto|].
  destruct (encodable name) eqn:Henc; [|left; eauto].
  destruct (select_by_username db name) eqn:Hget; [left; eauto|].
  right. repeat split; (lia || done).
Qed.

Lemma api_register_cases payload_username payload_password t1 t2 db :
  ((api_register lib payload_username payload_password t1 t2 db).1 = db ∧
   ((∃ sc error,
       (api_register lib payload_username payload_password t1 t2 db).2
       = Ok (JSONError sc error)) ∨
    ((api_register lib payload_username payload_password t1 t2 db).2
     = Uncaught "UnicodeEncodeError" ∧
     encodable (str_lower lib (str_strip lib (default [] payload_username)))
     = false))) ∨
  ((3 ≤ length (str_lower lib (str_strip lib (default [] payload_username)))
    ≤ 32)%nat ∧
   (6 ≤ length (default [] payload_password))%nat ∧
   encodable (str_lower lib (str_strip lib (default [] payload_username)))
   = true ∧
   select_by_username db
     (str_lower lib (str_strip lib (default [] payload_username))) = None ∧
   api_register lib payload_username payload_password t1 t2 db =
   store_hashed lib
     (λ token, Registered token
        (str_lower lib (str_strip lib (default [] payload_username))))
     (str_lower lib (str_strip lib (default [] payload_username)))
     (pwd_hash lib (default [] payload_password)) t1 t2 db).
Proof.
  unfold api_register, get_user_by_username, store_user.
  set (name := str_lower lib (str_strip lib (default [] payload_username))).
  set (password := default [] payload_password).
  destruct (Nat.ltb_spec (length name) 3); simpl; [left; eauto|].
  destruct (Nat.ltb_spec 32 (length name)); simpl; [left; eauto|].
  destruct (Nat.ltb_spec (length password) 6); simpl; [left; eauto|].
  destruct (encodable name) eqn:Henc; [|left; eauto].
  destruct (select_by_username db name) eqn:Hget; [left; eauto|].
  right. repeat split; (lia || done).
Qed.

End AccountProps.

(** Registration keeps the table in order. Whatever the form or the body
    holds, after [register_post] and after [api_register] the usernames and
    the ids are still unique and every username still has 3 to 32
    characters, and the rows that were there are there unchanged, in
    place. *)
Theorem registration_keeps_the_table lib form_username form_password
    payload_username payload_password t1 t2 db :
  table_ok db →
  Forall (λ row, (3 ≤ length (username row) ≤ 32)%nat) (users db) →
  (table_ok (register_post lib form_username form_password t1 t2 db).1 ∧
   users db `prefix_of`
     users (register_post lib form_username form_password t1 t2 db).1 ∧
   Forall (λ row, (3 ≤ length (username row) ≤ 32)%nat)
     (users (register_post lib form_username form_password t1 t2 db).1)) ∧
  (table_ok (api_register lib payload_username payload_password t1 t2 db).1 ∧
   users db `prefix_of`
     users (api_register lib payload_username payload_password t1 t2 db).1 ∧
   Forall (λ row, (3 ≤ length (username row) ≤ 32)%nat)
     (users (api_register lib payload_username payload_password t1 t2 db).1)).
Proof.
  intros Hok Hall. split.
  - destruct (register_post_cases lib form_username form_password t1 t2 db)
      as [[-> _]|(Hlen & _ & Henc & Hfree & ->)]; [done|].
    by apply store_hashed_keeps.
  - destruct (api_register_cases lib payload_username payload_password t1 t2 db)
      as [[-> _]|(Hlen & _ & Henc & Hfree & ->)]; [done|].
    by apply store_hashed_keeps.
Qed.

Lemma registration_keeps_the_table_witness :
  table_ok empty_database ∧
  table_ok (api_register plain_library (Some alice) (Some secret1) 10 11
              empty_database).1.
Proof.
  assert (Hok : table_ok empty_database) by (split; constructor).
  split; [exact Hok|].
  exact (proj1 (proj2 (registration_keeps_the_table plain_library
                         alice secret1 (Some alice) (Some secret1) 10 11
                         empty_database Hok (Forall_nil_2 _)))).
Defined.

(** The shape of a registration that answered with a token. *)
Lemma api_register_Registered lib payload_username payload_password t1 t2
    db db' token name :
  api_register lib payload_username payload_password t1 t2 db
    = (db', Ok (Registered token name)) →
  name = str_lower lib (str_strip lib (default [] payload_username)) ∧
  encodable name = true ∧
  select_by_username db name = None ∧
  (3 ≤ length name ≤ 32)%nat ∧
  ∃ ph,
    pwd_hash lib (default [] payload_password) = Ok ph ∧
    token = create_jwt lib (next_rowid db) name t2 ∧
    db' = mkDatabase
            (users db ++ [mkUser (next_rowid db) name ph t1 None None])
            (next_rowid db).
Proof.
  destruct (api_register_cases lib payload_username payload_password t1 t2 db)
    as [[_ [(sc & err & Hr)|[Hr _]]]|(Hlen & _ & Henc & Hfree & ->)].
  - intros Heq. rewrite Heq in Hr. done.
  - intros Heq. rewrite Heq in Hr. done.
  - destruct (store_hashed_free lib
                (λ tok, Registered tok
                   (str_lower lib (str_strip lib (default [] payload_username))))
                (str_lower lib (str_strip lib (default [] payload_username)))
                (pwd_hash lib (default [] payload_password)) t1 t2 db Henc Hfree)
      as [(ph & Hhash & _ & ->)|[_ [(ph & _ & _ & Hr)|
            [(sc & d & _ & Hr)|(cls & _ & Hr)]]]];
      try (intros Heq; rewrite Heq in Hr; done).
    intros [= <- <- <-]. split; [done|]. split; [done|]. split; [done|].
    split; [done|]. by exists ph.
Qed.

(** Registering and then logging in is a round trip. After [api_register]
    answered with a token, a login under the same name and password, through
    the API or through the form, is accepted when the library verifies the
    password against the hash it made of it, and the token of the login is
    for the same id and username as the token of the registration. *)
Theorem login_after_registration lib payload_username password t1 t2 db db'
    token name :
  api_register lib payload_username (Some password) t1 t2 db
    = (db', Ok (Registered token name)) →
  (∀ ph, pwd_hash lib password = Ok ph → pwd_verify lib password ph = Ok true) →
  ∃ uid,
    token = create_jwt lib uid name t2 ∧
    ∀ t3,
      api_login lib payload_username (Some password) t3 db'
      = Ok (LoggedIn (create_jwt lib uid name t3) name false) ∧
      login_post lib (default [] payload_username) password t3 db'
      = Ok (RedirectWithToken "/dashboard" (create_jwt lib uid name t3)).
Proof.
  intros Hreg Hverify.
  apply api_register_Registered in Hreg
    as (Hname & Henc & Hfree & _ & ph & Hhash & -> & ->).
  simpl in Hhash. exists (next_rowid db). split; [done|]. intros t3.
  pose proof (select_by_username_app db name
                (mkUser (next_rowid db) name ph t1 None None)
                (next_rowid db) Hfree eq_refl) as Hget.
  unfold api_login, login_post, check_credentials.
  rewrite <- Hname, (get_user_by_username_encodable _ _ Henc), Hget. simpl.
  by rewrite (Hverify ph Hhash).
Qed.

Lemma login_after_registration_witness :
  api_register plain_library (Some alice) (Some secret1) 10 11 empty_database
    = (mkDatabase [mkUser 1 alice "hash" 10 None None] 1,
       Ok (Registered "1" alice)) ∧
  ∃ uid,
    "1" = create_jwt plain_library uid alice 11 ∧
    ∀ t3,
      api_login plain_library (Some alice) (Some secret1) t3
        (mkDatabase [mkUser 1 alice "hash" 10 None None] 1)
      = Ok (LoggedIn (create_jwt plain_library uid alice t3) alice false) ∧
      login_post plain_library (default [] (Some alice)) secret1 t3
        (mkDatabase [mkUser 1 alice "hash" 10 None None] 1)
      = Ok (RedirectWithToken "/dashboard"
              (create_jwt plain_library uid alice t3)).
Proof.
  split; [reflexivity|].
  exact (login_after_registration plain_library (Some alice) secret1 10 11
           empty_database _ "1" alice eq_refl (λ _ _, eq_refl)).
Defined.

(** A username is registered once. After a registration answered with a
    token, every later registration under a name that strips and lowers to
    the same username leaves the table as it is; the API refuses it with
    the 409 user_exists when its password is long enough, and the form with
    the page that says the user exists. *)
Theorem second_registration_is_refused lib payload_username payload_password
    t1 t2 db db' token name again password' t3 t4 :
  api_register lib payload_username payload_password t1 t2 db
    = (db', Ok (Registered token name)) →
  str_lower lib (str_strip lib again) = name →
  (6 ≤ length password')%nat →
  api_register lib (Some again) (Some password') t3 t4 db'
    = (db', Ok (JSONError 409 "user_exists")) ∧
  register_post lib again password' t3 t4 db'
    = (db', Ok (TemplateResponse "register.html" "Esse usuário já existe.")).
Proof.
  intros Hreg Hagain Hpw.
  apply api_register_Registered in Hreg
    as (_ & Henc & Hfree & Hlen & ph & _ & _ & ->).
  pose proof (select_by_username_app db name
                (mkUser (next_rowid db) name ph t1 None None)
                (next_rowid db) Hfree eq_refl) as Hget.
  unfold api_register, register_post. simpl.
  rewrite Hagain, (get_user_by_username_encodable _ _ Henc), Hget.
  destruct (Nat.ltb_spec (length name) 3); [lia|].
  destruct (Nat.ltb_spec 32 (length name)); [lia|].
  destruct (Nat.ltb_spec (length password') 6); [lia|]. done.
Qed.

Lemma second_registration_is_refused_witness :
  api_register plain_library (Some alice) (Some secret1) 10 11 empty_database
    = (mkDatabase [mkUser 1 alice "hash" 10 None None] 1,
       Ok (Registered "1" alice)) ∧
  str_lower plain_library (str_strip plain_library alice) = alice ∧
  (6 ≤ length secret1)%nat ∧
  api_register plain_library (Some alice) (Some secret1) 20 21
    (mkDatabase [mkUser 1 alice "hash" 10 None None] 1)
    = (mkDatabase [mkUser 1 alice "hash" 10 None None] 1,
       Ok (JSONError 409 "user_exists")).
Proof.
  split; [reflexivity|]. split; [reflexivity|]. split; [simpl; lia|].
  refine (proj1 (second_registration_is_refused plain_library (Some alice)
                   (Some secret1) 10 11 empty_database _ "1" alice alice
                   secret1 20 21 eq_refl eq_refl _)).
  simpl. lia.
Defined.

(** The form and the API register alike: on the same username and password
    [register_post] and [api_register] leave the same table, and one
    answers with a token exactly when the other does, the same token. *)
Theorem form_and_api_register_alike lib name password t1 t2 db :
  (register_post lib name password t1 t2 db).1
  = (api_register lib (Some name) (Some password) t1 t2 db).1 ∧
  ∀ token,
    (register_post lib name password t1 t2 db).2
    = Ok (RedirectWithToken "/dashboard" token) ↔
    (api_register lib (Some name) (Some password) t1 t2 db).2
    = Ok (Registered token (str_lower lib (str_strip lib name))).
Proof.
  unfold register_post, api_register. simpl.
  set (nm := str_lower lib (str_strip lib name)).
  destruct (Nat.ltb_spec (length nm) 3); simpl; [done|].
  destruct (Nat.ltb_spec 32 (length nm)); simpl; [done|].
  destruct (Nat.ltb_spec (length password) 6); simpl; [done|].
  destruct (get_user_by_username db nm) as [[row|]| |] eqn:Hget; [done| |done..].
  unfold store_user, store_hashed.
  destruct (pwd_hash lib password) as [ph| |]; [|done..].
  destruct (insert_user db nm ph t1) as [db''| |]; [|done..].
  destruct (get_user_by_username db'' nm) as [[row|]| |]; [|done..].
  split; [done|]. intros token. split; by intros [= <-].
Qed.

(** A login that is accepted is the login of a row of the table: its
    username is the name given, stripped and lowered, the library verified
    the password against its hash, and the token is for its id. *)
Theorem login_is_sound lib payload_username payload_password t db token name
    linked :
  api_login lib payload_username payload_password t db
    = Ok (LoggedIn token name linked) →
  ∃ row,
    row ∈ users db ∧
    username row = str_lower lib (str_strip lib (default [] payload_username)) ∧
    pwd_verify lib (default [] payload_password) (pass_hash row) = Ok true ∧
    name = username row ∧
    token = create_jwt lib (user_id row) (username row) t ∧
    linked = is_linked row.
Proof.
  unfold api_login, check_credentials.
  destruct (get_user_by_username db _) as [[row|]| |] eqn:Hget; [|done..].
  apply get_user_by_username_Ok in Hget as [_ Hsel]. symmetry in Hsel.
  apply select_by_username_Some in Hsel as [Hin Hname].
  destruct (pwd_verify lib _ (pass_hash row)) as [[]| |] eqn:Hv; [|done..].
  intros [= <- <- <-]. exists row. eauto 10.
Qed.

Lemma login_is_sound_witness :
  api_login plain_library (Some alice) (Some secret1) 12
    (mkDatabase [mkUser 1 alice "hash" 10 None None] 1)
    = Ok (LoggedIn "1" alice false) ∧
  ∃ row,
    row ∈ users (mkDatabase [mkUser 1 alice "hash" 10 None None] 1) ∧
    username row
    = str_lower plain_library
        (str_strip plain_library (default [] (Some alice))) ∧
    pwd_verify plain_library (default [] (Some secret1)) (pass_hash row)
    = Ok true ∧
    alice = username row ∧
    "1" = create_jwt plain_library (user_id row) (username row) 12 ∧
    false = is_linked row.
Proof.
  split; [reflexivity|].
  exact (login_is_sound plain_library (Some alice) (Some secret1) 12
           (mkDatabase [mkUser 1 alice "hash" 10 None None] 1)
           "1" alice false eq_refl).
Defined.

(** ** The JSON endpoints on every body *)

Lemma get_or_empty_text (field : option str) :
  get_or_empty (JStr <$> field) = JStr (default [] field).
Proof.
  destruct field as [s|]; [|done]. simpl.
  case_bool_decide as Hs; [by subst s | done].
Qed.

(** On a body whose username and password are strings, null or missing,
    the endpoints on every body are the endpoints on such bodies. *)
Lemma api_register_any_text lib hash_other payload_username payload_password
    t1 t2 db :
  api_register_any lib hash_other (JStr <$> payload_username)
    (JStr <$> payload_password) t1 t2 db
  = api_register lib payload_username payload_password t1 t2 db.
Proof.
  unfold api_register_any, api_register, store_user.
  rewrite !get_or_empty_text. simpl.
  destruct (_ <? 3)%nat; [done|]. destruct (32 <? _)%nat; [done|]. simpl.
  by destruct (_ <? 6)%nat.
Qed.

Lemma api_login_any_text lib verify_other payload_username payload_password
    t db :
  api_login_any lib verify_other (JStr <$> payload_username)
    (JStr <$> payload_password) t db
  = api_login lib payload_username payload_password t db.
Proof.
  unfold api_login_any, api_login, check_credentials.
  rewrite !get_or_empty_text. simpl.
  destruct (get_user_by_username db _) as [[row|]| |]; [|done..].
  by destruct (pwd_verify lib _ (pass_hash row)) as [[]| |].
Qed.

(** A registration run on its own never hits the UNIQUE constraint of the
    table and never misses the row it reads the id back from. An exception
    that leaves [register_post] is one the password hash raised, the
    refusal of a username that cannot be encoded, or SQLite's refusal of a
    row when the ids are used up. From [api_register], on any JSON body,
    there are two more: the AttributeError of a username that is true and
    no string, and the TypeError of a password that is true and has no
    length. *)
Theorem registration_raises_only_what_it_must lib hash_other
    form_username form_password payload_username payload_password
    t1 t2 db cls :
  ((register_post lib form_username form_password t1 t2 db).2 = Uncaught cls →
   pwd_hash lib form_password = Uncaught cls ∨
   (cls = "OperationalError" ∧ (max_rowid < next_rowid db)%Z) ∨
   (cls = "UnicodeEncodeError" ∧
    encodable (str_lower lib (str_strip lib form_username)) = false)) ∧
  ((api_register_any lib hash_other payload_username payload_password
      t1 t2 db).2 = Uncaught cls →
   (cls = "AttributeError" ∧
    ∀ raw, get_or_empty payload_username ≠ JStr raw) ∨
   (cls = "TypeError" ∧ py_len (get_or_empty payload_password) = None) ∨
   (∃ raw, get_or_empty payload_username = JStr raw ∧
           cls = "UnicodeEncodeError" ∧
           encodable (str_lower lib (str_strip lib raw)) = false) ∨
   hash_value lib hash_other (get_or_empty payload_password) = Uncaught cls ∨
   (cls = "OperationalError" ∧ (max_rowid < next_rowid db)%Z)).
Proof.
  split.
  - destruct (register_post_cases lib form_username form_password t1 t2 db)
      as [[_ [(tpl & err & ->)|[-> Henc]]]|(_ & _ & Henc & Hfree & ->)].
    + done.
    + intros [= <-]. right; right. done.
    + intros Hraise.
      destruct (store_hashed_uncaught lib _ _ _ t1 t2 db cls Henc Hfree Hraise)
        as [?|?]; [by left | right; by left].
  - unfold api_register_any.
    destruct (get_or_empty payload_username) as [|b|nz|raw|n|n] eqn:Hname;
      try (intros [= <-]; left; split; [done | intros raw' Hraw; congruence]).
    simpl.
    destruct (_ <? 3)%nat; [done|]. destruct (32 <? _)%nat; [done|]. simpl.
    destruct (py_len (get_or_empty payload_password)) as [len|] eqn:Hlen;
      [|intros [= <-]; right; left; done].
    destruct (len <? 6)%nat; [done|].
    unfold get_user_by_username.
    destruct (encodable (str_lower lib (str_strip lib raw))) eqn:Henc.
    + destruct (select_by_username db _) as [row|] eqn:Hfree; [done|].
      intros Hraise.
      destruct (store_hashed_uncaught lib _ _ _ t1 t2 db cls Henc Hfree Hraise)
        as [?|?]; [right; right; right; by left | by repeat right].
    + intros [= <-]. right; right; left. exists raw. done.
Qed.

(** A body whose username is the number 5: line 263 asks a number to
    strip itself. *)
Lemma registration_raises_only_what_it_must_witness :
  (api_register_any plain_library (λ _, Uncaught "TypeError")
     (Some (JNumber true)) (Some (JStr secret1)) 10 11 empty_database).2
  = Uncaught "AttributeError" ∧
  ∀ raw, get_or_empty (Some (JNumber true)) ≠ JStr raw.
Proof.
  assert (Hraised :
    (api_register_any plain_library (λ _, Uncaught "TypeError")
       (Some (JNumber true)) (Some (JStr secret1)) 10 11 empty_database).2
    = Uncaught "AttributeError") by reflexivity.
  split; [exact Hraised|].
  destruct (proj2 (registration_raises_only_what_it_must plain_library
                     (λ _, Uncaught "TypeError") alice secret1
                     (Some (JNumber true)) (Some (JStr secret1)) 10 11
                     empty_database "AttributeError") Hraised)
    as [[_ Hno]|[[Hf _]|[(raw & _ & Hf & _)|[Hf|[Hf _]]]]];
    [exact Hno | discriminate Hf..].
Defined.
